(** * r2.py: prioritized hindsight replay, navigation physics, dueling head

    A shallow embedding of [src/code/r2.py].  Python floats are idealised as
    real numbers ([R]); Python lists and deques are lists; the pseudo-random
    generator is an oracle whose draws are arguments of the functions that
    consume them. *)

From Stdlib Require Import Reals Lra Lia ZArith List Bool.
From stdpp Require Import base list.
Import ListNotations.
Open Scope R_scope.

(** ** Real-number comparisons as booleans *)

Definition Rltb (a b : R) : bool := if Rlt_dec a b then true else false.
Definition Reqb (a b : R) : bool := if Req_dec_T a b then true else false.

(** ** Python sequences *)

(** [seq[i]] for a Python list or deque of length [len]: a negative index
    counts from the end, anything outside [-len, len) raises [IndexError]
    (here [None]). *)
Definition py_index (len : nat) (i : Z) : option nat :=
  if (0 <=? i)%Z then
    if (i <? Z.of_nat len)%Z then Some (Z.to_nat i) else None
  else
    if (- Z.of_nat len <=? i)%Z then Some (Z.to_nat (Z.of_nat len + i)) else None.

(** [collections.deque(maxlen=...)].append: the item goes to the right end
    and, when the deque then holds more than [maxlen] items, the leftmost one
    is dropped. *)
Definition deque_append {A} (maxlen : nat) (d : list A) (x : A) : list A :=
  let d' := d ++ [x] in
  if (maxlen <? length d')%nat then drop 1 d' else d'.

(** The last [n] items of a list. *)
Definition keep_last {A} (n : nat) (l : list A) : list A :=
  drop (length l - n) l.

(** Python's [max] over a non-empty sequence of floats. *)
Definition max_of (x : R) (l : list R) : R := fold_left Rmax l x.

(** * Prioritized hindsight replay buffer ([class ReplayBuffer]) *)

Module ReplayBuffer.

(** An observation is the tensor built by [_get_state]: a list of numbers. *)
Definition Observation := list R.

(** The tuple [(state, action, reward, next_state, done)]. *)
Record Transition := mkTransition {
  t_state : Observation;
  t_action : Z;
  t_reward : R;
  t_next_state : Observation;
  t_done : bool
}.

(** [__init__]: the two deques share [maxlen = capacity]; [alpha],
    [beta_increment] and [epsilon] are set once and never assigned again. *)
Definition alpha : R := 0.6.
Definition beta_increment : R := 0.001.
Definition epsilon : R := 1e-6.

Record t := mk {
  capacity : nat;
  buffer : list Transition;
  priorities : list R;
  beta : R
}.

Definition init (capacity : nat) : t :=
  {| capacity := capacity; buffer := []; priorities := []; beta := 0.4 |}.

Definition len (b : t) : nat := length (buffer b).

(** [max(self.priorities) if self.priorities else 1.0] *)
Definition max_priority (b : t) : R :=
  match priorities b with
  | [] => 1
  | p :: ps => max_of p ps
  end.

(** The synthetic entry of the hindsight branch:
    [(state, action, 1.0, next_state, True)]. *)
Definition hindsight (tr : Transition) : Transition :=
  {| t_state := t_state tr; t_action := t_action tr; t_reward := 1;
     t_next_state := t_next_state tr; t_done := true |}.

Definition append (b : t) (tr : Transition) (p : R) : t :=
  {| capacity := capacity b;
     buffer := deque_append (capacity b) (buffer b) tr;
     priorities := deque_append (capacity b) (priorities b) p;
     beta := beta b |}.

Definition push (b : t) (tr : Transition) : t :=
  let max_priority := max_priority b in
  let b1 := append b tr max_priority in
  if negb (t_done tr) then append b1 (hindsight tr) max_priority else b1.

(** What a call leaves behind: the buffer after a normal return together
    with the returned value, or the buffer at the point an exception was
    raised. *)
Inductive outcome (A : Type) : Type :=
| Returned (b : t) (a : A)
| Raised (b : t).
Arguments Returned {A} b a.
Arguments Raised {A} b.

Definition state_of {A} (o : outcome A) : t :=
  match o with Returned b _ => b | Raised b => b end.

(** [np.array(self.priorities) ** self.alpha], then divided by its sum.
    [Rpower x y] is [exp (y * ln x)]: it is numpy's power on positive [x]. *)
Definition probs (b : t) : list R :=
  let raw := map (fun p => Rpower p alpha) (priorities b) in
  let total := fold_right Rplus 0 raw in
  map (fun p => p / total) raw.

(** The batched fields returned by [sample]. *)
Record Batch := mkBatch {
  states : list Observation;
  actions : list Z;
  rewards : list R;
  next_states : list Observation;
  dones : list bool
}.

Definition batch_of (samples : list Transition) : Batch :=
  {| states := map t_state samples;
     actions := map t_action samples;
     rewards := map t_reward samples;
     next_states := map t_next_state samples;
     dones := map t_done samples |}.

(** Indexing a sequence at each of the given indices, [None] if one of them
    is out of range. *)
Definition gather {A} (l : list A) (indices : list Z) : option (list A) :=
  mapM (fun i => n ← py_index (length l) i; l !! n) indices.

(** [(len(self.buffer) * probs[indices]) ** (-self.beta)] *)
Definition raw_weights (n : nat) (beta : R) (ps : list R) : list R :=
  map (fun p => Rpower (INR n * p) (- beta)) ps.

(** [weights /= weights.max()]; numpy raises on an empty array. *)
Definition normalize (ws : list R) : option (list R) :=
  match ws with
  | [] => None
  | w :: ws' => let m := max_of w ws' in Some (map (fun x => x / m) ws)
  end.

(** [sample]: [indices] is what [np.random.choice(len(self.buffer),
    batch_size, p=probs)] drew, so [batch_size] is its length.  The draw
    itself raises on an empty buffer. *)
Definition sample (b : t) (indices : list Z)
  : outcome (Batch * list Z * list R) :=
  let b' := {| capacity := capacity b; buffer := buffer b;
               priorities := priorities b;
               beta := Rmin 1 (beta b + beta_increment) |} in
  let probs := probs b' in
  if (len b' =? 0)%nat then Raised b' else
  match gather (buffer b') indices, gather probs indices with
  | Some samples, Some ps =>
      match normalize (raw_weights (len b') (beta b') ps) with
      | Some weights => Returned b' (batch_of samples, indices, weights)
      | None => Raised b'
      end
  | _, _ => Raised b'
  end.

(** [self.priorities[idx] = abs(td_error) + self.epsilon] for each pair of
    [zip(indices, td_errors)]; an index out of range raises and leaves the
    assignments made so far in place. *)
Fixpoint update_priorities_loop (b : t) (pairs : list (Z * R)) : outcome unit :=
  match pairs with
  | [] => Returned b tt
  | (idx, td_error) :: rest =>
      match py_index (length (priorities b)) idx with
      | Some n =>
          update_priorities_loop
            {| capacity := capacity b; buffer := buffer b;
               priorities := <[n := Rabs td_error + epsilon]> (priorities b);
               beta := beta b |} rest
      | None => Raised b
      end
  end.

Definition update_priorities (b : t) (indices : list Z) (td_errors : list R)
  : outcome unit :=
  update_priorities_loop b (zip indices td_errors).

(** The buffer invariant. *)
Record inv (b : t) : Prop := {
  inv_pos : Forall (fun p => 0 < p) (priorities b);
  inv_len : length (priorities b) = length (buffer b);
  inv_cap : (length (buffer b) <= capacity b)%nat
}.

End ReplayBuffer.

(** * The navigation world ([class NavigationEnv]) *)

(** [math.atan2(y, x)] on real numbers (signed zeros do not exist here). *)
Definition atan2 (y x : R) : R :=
  if Rltb 0 x then atan (y / x)
  else if Rltb x 0 then
    (if Rltb y 0 then atan (y / x) - PI else atan (y / x) + PI)
  else if Rltb 0 y then PI / 2
  else if Rltb y 0 then - PI / 2
  else 0.

(** A position is the two-element list [[x, y]]. *)
Definition Pos : Type := R * R.

(** [math.sqrt((p[0] - q[0])**2 + (p[1] - q[1])**2)] *)
Definition distance (p q : Pos) : R :=
  sqrt ((fst p - fst q) ^ 2 + (snd p - snd q) ^ 2).

(** [max(lo, min(hi, x))] *)
Definition clamp (lo hi x : R) : R := Rmax lo (Rmin hi x).

(** [action in [a, b, c]] *)
Definition member (a : Z) (l : list Z) : bool := existsb (Z.eqb a) l.

Module NavigationEnv.

(** Attributes that [__init__] sets and nothing assigns again. *)
Definition width : R := 1024.
Definition height : R := 768.
Definition agent_radius : R := 12.
Definition target_radius : R := 15.
Definition speed : R := 4.
Definition target_speed : R := 2.

(** An obstacle dictionary: ['pos'], ['radius'], ['angle'], ['speed']. *)
Record Obstacle := mkObstacle {
  pos : Pos;
  radius : R;
  angle : R;
  ob_speed : R
}.

(** The attributes that change. *)
Record t := mk {
  agent_pos : Pos;
  target_pos : Pos;
  target_angle : R;
  obstacles : list Obstacle
}.

(** [__init__]; [u] and [us] are the values [random.random()] returned. *)
Definition init (u : R) (us : R * R * R * R) : t :=
  let '(u1, u2, u3, u4) := us in
  {| agent_pos := (400, 300);
     target_pos := (600, 400);
     target_angle := u * 2 * PI;
     obstacles :=
       [ mkObstacle (300, 400) 50 (u1 * 2 * PI) 1.5;
         mkObstacle (700, 300) 40 (u2 * 2 * PI) 1.2;
         mkObstacle (500, 600) 45 (u3 * 2 * PI) 1.8;
         mkObstacle (200, 200) 35 (u4 * 2 * PI) 1.3 ] |}.

(** [_check_collision]: the first obstacle whose circle the agent's circle
    overlaps, or [None]. *)
Definition overlaps (p : Pos) (o : Obstacle) : bool :=
  Rltb (distance p (pos o)) (agent_radius + radius o).

Definition _check_collision (p : Pos) (obs : list Obstacle) : option Obstacle :=
  find (overlaps p) obs.

(** [_get_state] *)
Definition _get_state (s : t) : list R :=
  [ fst (agent_pos s) / width; snd (agent_pos s) / height;
    fst (target_pos s) / width; snd (target_pos s) / height ]
  ++ flat_map (fun o =>
       let dist := distance (agent_pos s) (pos o) in
       let ang := atan2 (snd (pos o) - snd (agent_pos s))
                        (fst (pos o) - fst (agent_pos s)) in
       [ dist / sqrt (width ^ 2 + height ^ 2);
         ang / PI;
         cos (angle o) * ob_speed o / speed;
         sin (angle o) * ob_speed o / speed ]) (obstacles s).

(** ** [reset] *)

(** The values the random generator hands to one call of [reset]:
    [agent_draws i] is the pair of [randint] results of the [i]-th turn of
    the placement loop. *)
Record Draws := mkDraws {
  agent_draws : nat -> Z * Z;
  target_draw : Z * Z;
  target_u : R;
  obstacle_draws : nat -> Z * Z * R
}.

Definition pos_of (d : Z * Z) : Pos := (IZR (fst d), IZR (snd d)).

(** [randint(50, self.width-50)], [randint(50, self.height-50)] and
    [random.random()] stay in their ranges. *)
Definition in_spawn_range (d : Z * Z) : Prop :=
  (50 <= fst d <= 974)%Z /\ (50 <= snd d <= 718)%Z.

Record valid_draws (d : Draws) : Prop := {
  valid_agent : forall i, in_spawn_range (agent_draws d i);
  valid_target : in_spawn_range (target_draw d);
  valid_target_u : 0 <= target_u d < 1;
  valid_obstacles : forall i,
    in_spawn_range (fst (obstacle_draws d i))
    /\ 0 <= snd (obstacle_draws d i) < 1
}.

(** The loop [while True: ...; if not self._check_collision(): break],
    run for at most [fuel] turns starting at draw [i]; [None] when the
    turns are used up with the loop still running. *)
Fixpoint place_agent (fuel : nat) (obs : list Obstacle)
    (draws : nat -> Z * Z) (i : nat) : option Pos :=
  match fuel with
  | O => None
  | S fuel' =>
      let p := pos_of (draws i) in
      match _check_collision p obs with
      | Some _ => place_agent fuel' obs draws (S i)
      | None => Some p
      end
  end.

Fixpoint reset_obstacles (obs : list Obstacle) (draws : nat -> Z * Z * R)
    (i : nat) : list Obstacle :=
  match obs with
  | [] => []
  | o :: rest =>
      let '(d, u) := draws i in
      {| pos := pos_of d; radius := radius o; angle := u * 2 * PI;
         ob_speed := ob_speed o |} :: reset_obstacles rest draws (S i)
  end.

Definition reset (fuel : nat) (s : t) (d : Draws) : option (t * list R) :=
  match place_agent fuel (obstacles s) (agent_draws d) 0 with
  | None => None
  | Some p =>
      let s' := {| agent_pos := p;
                   target_pos := pos_of (target_draw d);
                   target_angle := target_u d * 2 * PI;
                   obstacles := reset_obstacles (obstacles s) (obstacle_draws d) 0 |} in
      Some (s', _get_state s')
  end.

(** ** [step] *)

(** The target's position while the obstacle loop runs.  Two list objects
    exist: the one [self.target_pos] is bound to on entry ([live]) and the
    copy [old_target_pos] ([saved]).  [rebound] records that
    [self.target_pos = old_target_pos] has been executed, after which both
    names denote the [saved] object. *)
Record TargetLoop := mkTargetLoop {
  live : Pos;
  saved : Pos;
  rebound : bool;
  heading : R
}.

(** The object [self.target_pos] denotes. *)
Definition current (st : TargetLoop) : Pos :=
  if rebound st then saved st else live st.

Definition target_overlaps (p : Pos) (o : Obstacle) : bool :=
  Rltb (distance p (pos o)) (target_radius + radius o).

(** One turn of [for obstacle in self.obstacles] for the target. *)
Definition target_bounce (st : TargetLoop) (o : Obstacle) : TargetLoop :=
  let p := current st in
  if target_overlaps p o then
    let dx := fst p - fst (pos o) in
    let dy := snd p - snd (pos o) in
    let bounce_angle := atan2 dy dx in
    (* self.target_pos = old_target_pos; the two += then mutate that object *)
    {| live := live st;
       saved := (fst (saved st) + cos bounce_angle * target_speed,
                 snd (saved st) + sin bounce_angle * target_speed);
       rebound := true;
       heading := bounce_angle |}
  else st.

Definition target_loop (st : TargetLoop) (obs : list Obstacle) : TargetLoop :=
  fold_left target_bounce obs st.

(** Lines 221-231: copy, move, reflect the heading at the walls. *)
Definition target_move (s : t) : TargetLoop :=
  let old_target_pos := target_pos s in
  let x := fst (target_pos s) + cos (target_angle s) * target_speed in
  let y := snd (target_pos s) + sin (target_angle s) * target_speed in
  let a1 := if Rltb x target_radius || Rltb (width - target_radius) x
            then PI - target_angle s else target_angle s in
  let a2 := if Rltb y target_radius || Rltb (height - target_radius) y
            then - a1 else a1 in
  {| live := (x, y); saved := old_target_pos; rebound := false; heading := a2 |}.

(** Lines 250-263: one obstacle moves, reflects its heading, is clamped. *)
Definition move_obstacle (o : Obstacle) : Obstacle :=
  let x := fst (pos o) + cos (angle o) * ob_speed o in
  let y := snd (pos o) + sin (angle o) * ob_speed o in
  let a1 := if Rltb x (radius o) || Rltb (width - radius o) x
            then PI - angle o else angle o in
  let a2 := if Rltb y (radius o) || Rltb (height - radius o) y
            then - a1 else a1 in
  {| pos := (clamp (radius o) (width - radius o) x,
             clamp (radius o) (height - radius o) y);
     radius := radius o; angle := a2; ob_speed := ob_speed o |}.

(** Lines 272-286: the displacement an action code stands for. *)
Definition displacement (action : Z) : R * R :=
  let dx := 0 in
  let dy := 0 in
  let dy := if member action [0; 4; 5]%Z then dy - speed else dy in
  let dy := if member action [2; 6; 7]%Z then dy + speed else dy in
  let dx := if member action [1; 5; 7]%Z then dx + speed else dx in
  let dx := if member action [3; 4; 6]%Z then dx - speed else dx in
  if negb (Reqb dx 0) && negb (Reqb dy 0)
  then (dx * 0.707, dy * 0.707)
  else (dx, dy).

(** Lines 288-293: the agent after its move and the clamp into the world. *)
Definition moved_agent (p : Pos) (action : Z) : Pos :=
  let '(dx, dy) := displacement action in
  (clamp 0 width (fst p + dx), clamp 0 height (snd p + dy)).

(** Lines 221-267: everything that happens before the agent moves. *)
Definition world_tick (s : t) : t :=
  let st := target_loop (target_move s) (obstacles s) in
  let obs := map move_obstacle (obstacles s) in
  let tp := current st in
  {| agent_pos := agent_pos s;
     target_pos := (clamp target_radius (width - target_radius) (fst tp),
                    clamp target_radius (height - target_radius) (snd tp));
     target_angle := heading st;
     obstacles := obs |}.

(** Lines 301-319: the bounce off the first overlapping obstacle, or the
    shaped reward. *)
Definition resolve (old_pos moved : Pos) (dist old_dist : R)
    (obs : list Obstacle) : Pos * R :=
  match _check_collision moved obs with
  | Some obstacle =>
      let dx := fst moved - fst (pos obstacle) in
      let dy := snd moved - snd (pos obstacle) in
      let bounce_angle := atan2 dy dx in
      ((fst old_pos + cos bounce_angle * speed,
        snd old_pos + sin bounce_angle * speed), -2)
  | None => (moved, (old_dist - dist) * 0.5 - 0.1)
  end.

Definition step (s : t) (action : Z) : t * (list R * R * bool) :=
  let w := world_tick s in
  let old_pos := agent_pos w in
  let moved := moved_agent old_pos action in
  let dist := distance moved (target_pos w) in
  let old_dist := distance old_pos (target_pos w) in
  let '(p, reward) := resolve old_pos moved dist old_dist (obstacles w) in
  let done := Rltb dist (agent_radius + target_radius) in
  let reward := if done then 200 else reward in
  let s' := {| agent_pos := p; target_pos := target_pos w;
               target_angle := target_angle w; obstacles := obstacles w |} in
  (s', (_get_state s', reward, done)).

(** A sequence of [env.step] calls. *)
Definition run (s : t) (actions : list Z) : t :=
  fold_left (fun s a => fst (step s a)) actions s.

Definition in_bounds (p : Pos) : Prop :=
  0 <= fst p <= width /\ 0 <= snd p <= height.

End NavigationEnv.

(** * The function approximator ([class DQNReasoner]) *)

(** Rank-3 tensors as nested lists, indexed [dim 0][dim 1][dim 2]. *)
Definition Tensor3 : Type := list (list (list R)).

(** Broadcasting of an element-wise operation along one dimension: sizes
    agree, or the side of size 1 is repeated. *)
Definition broadcast {A B C} (f : A -> B -> C) (l : list A) (k : list B) : list C :=
  match l, k with
  | [a], _ => map (f a) k
  | _, [b] => map (fun a => f a b) l
  | _, _ => zip_with f l k
  end.

Definition tensor_add (x y : Tensor3) : Tensor3 :=
  broadcast (broadcast (broadcast Rplus)) x y.

Definition tensor_sub (x y : Tensor3) : Tensor3 :=
  broadcast (broadcast (broadcast Rminus)) x y.

(** The sum of the rows of a matrix, entry by entry. *)
Definition row_sum (m : list (list R)) : list R :=
  match m with
  | [] => []
  | r :: rs => fold_left (zip_with Rplus) rs r
  end.

(** [x.mean(dim=1, keepdim=True)]: for every index of dim 0 and dim 2, the
    mean over dim 1; dim 1 is kept with size 1. *)
Definition mean_dim1_keepdim (x : Tensor3) : Tensor3 :=
  map (fun m => [map (fun s => s / INR (length m)) (row_sum m)]) x.

(** A module applied to the last dimension of a tensor. *)
Definition apply_last (f : list R -> list R) (x : Tensor3) : Tensor3 :=
  map (map f) x.

(** The mean of a list of numbers. *)
Definition mean (l : list R) : R := fold_right Rplus 0 l / INR (length l).

Module DQNReasoner.

(** The learned maps of one network.  [trunk] stands for lines 81-103 on a
    batch of observations: embedding, attention and reasoning layers.  The
    embedded batch has shape [batch, d_model]; adding [pos_encoder], whose
    shape is [1, 1, d_model], broadcasts it to [1, batch, d_model], and the
    layers that follow keep that shape, so [trunk] yields the [batch] rows
    that sit inside the leading dimension of size 1. *)
Record t := mk {
  trunk : list (list R) -> list (list R);
  value_stream : list R -> list R;
  advantage_stream : list R -> list R;
  next_state_predictor : list R -> list R;
  training : bool
}.

(** Line 110. *)
Definition combine (value advantage : Tensor3) : Tensor3 :=
  tensor_add value (tensor_sub advantage (mean_dim1_keepdim advantage)).

(** What [forward] returns: the tuple [(q_values, next_state_pred)] in
    training mode, the tensor [q_values] otherwise. *)
Inductive Output :=
| Pair (q_values next_state_pred : Tensor3)
| Single (q_values : Tensor3).

Definition forward (net : t) (x : list (list R)) : Output :=
  let x := [trunk net x] in
  let value := apply_last (value_stream net) x in
  let advantage := apply_last (advantage_stream net) x in
  let q_values := combine value advantage in
  if training net then Pair q_values (apply_last (next_state_predictor net) x)
  else Single q_values.

(** The action values of a call, whichever way they are returned. *)
Definition q_values_of (o : Output) : Tensor3 :=
  match o with Pair q _ => q | Single q => q end.

End DQNReasoner.

(** * The training loop's update block (lines 442-467) *)

Module Training.

Definition batch_size : nat := 64.
Definition gamma : R := 0.99.

(** The objects the loop works on.  [nn.Module] starts in training mode and
    the script never calls [eval()] or [train()]. *)
Record t := mk {
  dqn : DQNReasoner.t;
  target_dqn : DQNReasoner.t;
  replay_buffer : ReplayBuffer.t
}.

Inductive Result :=
| Skipped                              (* fewer than [batch_size] entries *)
| Computed (target_q_values : list R)  (* the block ran to its last line *)
| Failed.                              (* an exception left the block *)

Definition with_buffer (st : t) (b : ReplayBuffer.t) : t :=
  {| dqn := dqn st; target_dqn := target_dqn st; replay_buffer := b |}.

(** [q.squeeze()] / [q.squeeze(0)] on a tensor of shape [1, batch, actions]
    with [batch] and [actions] larger than 1. *)
Definition squeeze (q : Tensor3) : list (list R) := concat q.

(** [q_values.gather(1, actions.unsqueeze(1))] *)
Definition gather_actions (q : list (list R)) (actions : list Z)
  : option (list R) :=
  mapM (fun '(row, a) => n ← py_index (length row) a; row !! n)
       (zip q actions).

(** [next_q_values.max(1)[0]] *)
Definition row_max (q : list (list R)) : option (list R) :=
  mapM (fun row => match row with [] => None | v :: vs => Some (max_of v vs) end) q.

(** [rewards + gamma * next_q_values * (1 - dones)] *)
Definition targets (rewards next_q : list R) (dones : list bool) : list R :=
  zip_with (fun '(r, n) (d : bool) => r + gamma * n * (1 - (if d then 1 else 0)))
           (zip rewards next_q) dones.

(** The block guarded by [if len(replay_buffer) >= batch_size]. [indices]
    are the draws of the sampling call. *)
Definition update_block (st : t) (indices : list Z) : t * Result :=
  if (batch_size <=? ReplayBuffer.len (replay_buffer st))%nat then
    match ReplayBuffer.sample (replay_buffer st) indices with
    | ReplayBuffer.Raised b => (with_buffer st b, Failed)
    | ReplayBuffer.Returned b (batch, _, _) =>
        let st := with_buffer st b in
        match DQNReasoner.forward (dqn st) (ReplayBuffer.states batch) with
        | DQNReasoner.Pair _ _ => (st, Failed)  (* a tuple has no [squeeze] *)
        | DQNReasoner.Single q_values =>
            match gather_actions (squeeze q_values) (ReplayBuffer.actions batch) with
            | None => (st, Failed)
            | Some current_q_values =>
                match DQNReasoner.forward (target_dqn st) (ReplayBuffer.next_states batch) with
                | DQNReasoner.Pair _ _ => (st, Failed)
                | DQNReasoner.Single next_q_values =>
                    match row_max (squeeze next_q_values) with
                    | None => (st, Failed)
                    | Some next_q =>
                        (st, Computed (targets (ReplayBuffer.rewards batch) next_q
                                               (ReplayBuffer.dones batch)))
                    end
                end
            end
        end
    end
  else (st, Skipped).

(** ** The rest of the loop's bookkeeping (lines 393-395, 426-432, 476-481) *)

Definition action_size : Z := 8.
Definition epsilon_start : R := 1.
Definition epsilon_end : R := 0.01.
Definition epsilon_decay : R := 0.997.

(** [epsilon = max(epsilon_end, epsilon * epsilon_decay)], once per episode. *)
Definition decay (epsilon : R) : R := Rmax epsilon_end (epsilon * epsilon_decay).

(** The exploration rate after [n] episodes. *)
Definition epsilon_after (n : nat) : R := Nat.iter n decay epsilon_start.

(** [tensor.argmax().item()] on the flattened tensor: the index of the first
    largest entry; an empty tensor raises. *)
Fixpoint argmax_from (best : R) (best_i i : nat) (l : list R) : nat :=
  match l with
  | [] => best_i
  | x :: rest =>
      if Rltb best x then argmax_from x i (S i) rest
      else argmax_from best best_i (S i) rest
  end.

Definition argmax (l : list R) : option nat :=
  match l with
  | [] => None
  | x :: rest => Some (argmax_from x 0 1 rest)
  end.

(** Epsilon-greedy selection.  [u] is what [random.random()] returned and
    [explore] what [random.randrange(action_size)] returns if it is called.
    A single observation is a batch of one row for [forward]; in training
    mode [forward] returns a tuple, which has no [argmax] ([None]). *)
Definition select_action (epsilon u : R) (explore : Z) (net : DQNReasoner.t)
    (state : list R) : option Z :=
  if Rltb u epsilon then Some explore
  else
    match DQNReasoner.forward net [state] with
    | DQNReasoner.Pair _ _ => None
    | DQNReasoner.Single q_values =>
        option_map Z.of_nat (argmax (concat (concat q_values)))
    end.

End Training.

(** * Basic facts about the helpers *)

Section Helpers.

Lemma Rltb_true a b : a < b -> Rltb a b = true.
Proof. intros H. unfold Rltb. destruct (Rlt_dec a b); [reflexivity | contradiction]. Qed.

Lemma Rltb_false a b : b <= a -> Rltb a b = false.
Proof. intros H. unfold Rltb. destruct (Rlt_dec a b); [lra | reflexivity]. Qed.

Lemma Reqb_true a b : a = b -> Reqb a b = true.
Proof. intros H. unfold Reqb. destruct (Req_dec_T a b); [reflexivity | contradiction]. Qed.

Lemma Reqb_false a b : a <> b -> Reqb a b = false.
Proof. intros H. unfold Reqb. destruct (Req_dec_T a b); [contradiction | reflexivity]. Qed.

Lemma py_index_lt len i n : py_index len i = Some n -> (n < len)%nat.
Proof.
  unfold py_index. intros H.
  destruct (0 <=? i)%Z eqn:E0.
  - destruct (i <? Z.of_nat len)%Z eqn:E1; inversion H; subst. lia.
  - destruct (- Z.of_nat len <=? i)%Z eqn:E1; inversion H; subst. lia.
Qed.

Lemma py_index_in_range len i :
  (0 <= i < Z.of_nat len)%Z -> py_index len i = Some (Z.to_nat i).
Proof.
  intros [H0 H1]. unfold py_index.
  destruct (0 <=? i)%Z eqn:E0; [| lia].
  destruct (i <? Z.of_nat len)%Z eqn:E1; [reflexivity | lia].
Qed.

Lemma deque_append_length {A} maxlen (d : list A) x :
  (length d <= maxlen)%nat ->
  length (deque_append maxlen d x) = Nat.min maxlen (length d + 1).
Proof.
  intros H. unfold deque_append.
  destruct (maxlen <? length (d ++ [x]))%nat eqn:E.
  - apply Nat.ltb_lt in E. rewrite length_drop, length_app in *. simpl in *. lia.
  - apply Nat.ltb_ge in E. rewrite length_app in *. simpl in *. lia.
Qed.

Lemma deque_append_bounded {A} maxlen (d : list A) x :
  (length d <= maxlen)%nat -> (length (deque_append maxlen d x) <= maxlen)%nat.
Proof. intros H. rewrite deque_append_length by exact H. lia. Qed.

Lemma deque_append_Forall {A} (P : A -> Prop) maxlen d x :
  Forall P d -> P x -> Forall P (deque_append maxlen d x).
Proof.
  intros Hd Hx. unfold deque_append.
  assert (Forall P (d ++ [x])) by (apply Forall_app; split; [exact Hd | repeat constructor; exact Hx]).
  destruct (maxlen <? length (d ++ [x]))%nat; [apply Forall_drop |]; assumption.
Qed.

(** Two deques with the same [maxlen] and the same length evict together:
    appending to both is appending the pair to the zipped deque. *)
Lemma deque_append_zip {A B} maxlen (d : list A) (e : list B) x y :
  length d = length e ->
  zip (deque_append maxlen d x) (deque_append maxlen e y)
  = deque_append maxlen (zip d e) (x, y).
Proof.
  intros H. unfold deque_append.
  assert (Hz : zip (d ++ [x]) (e ++ [y]) = zip d e ++ [(x, y)]).
  { rewrite zip_with_app by exact H. reflexivity. }
  rewrite !length_app, length_zip, <- H, Nat.min_id. simpl.
  destruct (maxlen <? length d + 1)%nat.
  - rewrite <- Hz. rewrite zip_with_drop. reflexivity.
  - exact Hz.
Qed.

Lemma max_of_ge_init x l : x <= max_of x l.
Proof.
  unfold max_of. revert x. induction l as [| y l IH]; intros x; simpl.
  - lra.
  - specialize (IH (Rmax x y)). pose proof (Rmax_l x y). lra.
Qed.

Lemma max_of_ge x l : Forall (fun y => y <= max_of x l) l.
Proof.
  unfold max_of. revert x. induction l as [| y l IH]; intros x; simpl.
  - constructor.
  - constructor.
    + pose proof (max_of_ge_init (Rmax x y) l) as H. unfold max_of in H.
      pose proof (Rmax_r x y). lra.
    + apply IH.
Qed.

Lemma max_of_pos x l : 0 < x -> 0 < max_of x l.
Proof. intros H. pose proof (max_of_ge_init x l). lra. Qed.

Lemma deque_append_keep_last {A} maxlen (d : list A) x :
  (length d <= maxlen)%nat ->
  deque_append maxlen d x = keep_last maxlen (d ++ [x]).
Proof.
  intros H. unfold deque_append, keep_last. rewrite length_app. simpl.
  destruct (maxlen <? length d + 1)%nat eqn:E.
  - apply Nat.ltb_lt in E. replace (length d + 1 - maxlen)%nat with 1%nat by lia.
    reflexivity.
  - apply Nat.ltb_ge in E. replace (length d + 1 - maxlen)%nat with 0%nat by lia.
    reflexivity.
Qed.

Lemma keep_last_app {A} n (l k : list A) :
  (length l <= n)%nat ->
  keep_last n (keep_last n (l ++ k)) = keep_last n (l ++ k).
Proof.
  intros H. unfold keep_last. rewrite length_drop.
  replace (length (l ++ k) - (length (l ++ k) - n) - n)%nat with 0%nat by lia.
  reflexivity.
Qed.

Lemma deque_append_twice {A} maxlen (d : list A) x y :
  (length d <= maxlen)%nat ->
  deque_append maxlen (deque_append maxlen d x) y = keep_last maxlen (d ++ [x; y]).
Proof.
  intros H.
  rewrite (deque_append_keep_last maxlen (deque_append maxlen d x))
    by (apply deque_append_bounded; exact H).
  rewrite (deque_append_keep_last maxlen d x) by exact H.
  unfold keep_last. rewrite !length_app, length_drop, !length_app. simpl.
  destruct (Nat.le_gt_cases (length d + 1) maxlen) as [Hle | Hgt].
  - replace (length d + 1 - maxlen)%nat with 0%nat by lia.
    change (drop 0 (d ++ [x])) with (d ++ [x]).
    rewrite <- app_assoc. simpl app. f_equal. lia.
  - assert (Hd : length d = maxlen) by lia.
    replace (length d + 1 - maxlen)%nat with 1%nat by lia.
    replace (length d + 1 - 1 + 1 - maxlen)%nat with 1%nat by lia.
    replace (length d + 2 - maxlen)%nat with 2%nat by lia.
    destruct d as [| a [| b d]]; try reflexivity.
    simpl. rewrite <- app_assoc. reflexivity.
Qed.

End Helpers.

(** The constants of the world, unfolded for arithmetic. *)
Ltac world_consts :=
  unfold NavigationEnv.width, NavigationEnv.height, NavigationEnv.agent_radius,
    NavigationEnv.target_radius, NavigationEnv.speed, NavigationEnv.target_speed in *.

(** * Properties of the replay buffer *)

Section BufferProperties.
Import ReplayBuffer.

Lemma append_inv b tr p : inv b -> 0 < p -> inv (append b tr p).
Proof.
  intros [Hpos Hlen Hcap] Hp. split; simpl.
  - apply deque_append_Forall; assumption.
  - rewrite !deque_append_length by lia. rewrite Hlen. reflexivity.
  - apply deque_append_bounded. exact Hcap.
Qed.

Lemma max_priority_pos b : inv b -> 0 < max_priority b.
Proof.
  intros [Hpos _ _]. unfold max_priority.
  destruct (priorities b) as [| p ps]; [lra |].
  apply max_of_pos. inversion Hpos; assumption.
Qed.

Lemma push_inv b tr : inv b -> inv (push b tr).
Proof.
  intros H. pose proof (max_priority_pos b H) as Hm. unfold push.
  destruct (negb (t_done tr)); repeat apply append_inv; assumption.
Qed.

Lemma sample_state b indices :
  buffer (state_of (sample b indices)) = buffer b
  /\ priorities (state_of (sample b indices)) = priorities b
  /\ capacity (state_of (sample b indices)) = capacity b
  /\ beta (state_of (sample b indices)) = Rmin 1 (beta b + beta_increment).
Proof.
  unfold sample.
  repeat match goal with
         | |- context [if ?c then _ else _] => destruct c
         | |- context [match ?x with Some _ => _ | None => _ end] => destruct x
         end; simpl; auto.
Qed.

Lemma sample_inv b indices : inv b -> inv (state_of (sample b indices)).
Proof.
  intros [Hpos Hlen Hcap].
  destruct (sample_state b indices) as (Hb & Hp & Hc & _).
  split; rewrite ?Hb, ?Hp, ?Hc; assumption.
Qed.

Lemma epsilon_pos : 0 < epsilon.
Proof. unfold epsilon. lra. Qed.

Lemma update_priorities_loop_inv pairs :
  forall b, inv b -> inv (state_of (update_priorities_loop b pairs)).
Proof.
  induction pairs as [| [idx td] rest IH]; intros b Hb; simpl; [exact Hb |].
  destruct (py_index (length (priorities b)) idx) as [n |]; [| exact Hb].
  apply IH. destruct Hb as [Hpos Hlen Hcap]. split; simpl.
  - apply Forall_insert; [exact Hpos |].
    pose proof (Rabs_pos td). pose proof epsilon_pos. lra.
  - rewrite length_insert. exact Hlen.
  - exact Hcap.
Qed.

Lemma init_inv c : inv (init c).
Proof. split; simpl; [constructor | reflexivity | lia]. Qed.

Lemma append_paired b tr p :
  length (priorities b) = length (buffer b) ->
  zip (buffer (append b tr p)) (priorities (append b tr p))
  = deque_append (capacity b) (zip (buffer b) (priorities b)) (tr, p).
Proof. intros H. simpl. apply deque_append_zip. symmetry. exact H. Qed.

Lemma append_len b tr p :
  (length (buffer b) <= capacity b)%nat ->
  len (append b tr p) = Nat.min (capacity b) (len b + 1).
Proof. intros H. unfold len. simpl. apply deque_append_length. exact H. Qed.

Lemma push_len b tr :
  (len b <= capacity b)%nat ->
  len (push b tr)
  = Nat.min (capacity b) (len b + (if t_done tr then 1 else 2)).
Proof.
  intros H. unfold push. destruct (t_done tr); simpl negb; cbv iota.
  - apply append_len. exact H.
  - rewrite append_len.
    + simpl capacity. rewrite append_len by exact H. lia.
    + simpl. apply deque_append_bounded. exact H.
Qed.

Lemma max_of_scale m x l :
  0 < m -> max_of (x / m) (map (fun y => y / m) l) = max_of x l / m.
Proof.
  intros Hm. unfold max_of. revert x.
  induction l as [| y l IH]; intros x; simpl; [reflexivity |].
  rewrite <- IH. f_equal. unfold Rdiv.
  rewrite !(Rmult_comm _ (/ m)). apply RmaxRmult.
  left. apply Rinv_0_lt_compat. exact Hm.
Qed.

Lemma div_le_1 x m : 0 < m -> x <= m -> x / m <= 1.
Proof.
  intros Hm Hx. replace 1 with (m / m) by (field; lra).
  unfold Rdiv. apply Rmult_le_compat_r; [| exact Hx].
  left. apply Rinv_0_lt_compat. exact Hm.
Qed.

Lemma raw_weights_pos n b ps : Forall (fun w => 0 < w) (raw_weights n b ps).
Proof.
  unfold raw_weights. apply Forall_map, Forall_forall. intros p _.
  unfold Rpower. apply exp_pos.
Qed.

Lemma normalize_spec w ws :
  0 < w ->
  let m := max_of w ws in
  normalize (w :: ws) = Some (map (fun x => x / m) (w :: ws))
  /\ 0 < m
  /\ Forall (fun x => x <= 1) (map (fun x => x / m) (w :: ws))
  /\ max_of (w / m) (map (fun x => x / m) ws) = 1.
Proof.
  intros Hw m. assert (Hm : 0 < m) by (apply max_of_pos; exact Hw).
  repeat split.
  - exact Hm.
  - apply Forall_map. constructor.
    + simpl. pose proof (max_of_ge_init w ws). fold m in H.
      apply div_le_1; lra.
    + eapply Forall_impl; [apply (max_of_ge w ws) |].
      intros x Hx. simpl. fold m in Hx. apply div_le_1; lra.
  - rewrite max_of_scale by exact Hm. fold m. field. lra.
Qed.

Lemma gather_is_Some {A} (l : list A) indices :
  Forall (fun i => (0 <= i < Z.of_nat (length l))%Z) indices ->
  exists xs, gather l indices = Some xs
             /\ Forall2 (fun i x => l !! Z.to_nat i = Some x) indices xs.
Proof.
  intros H. unfold gather.
  induction H as [| i indices Hi _ IH].
  - exists []. split; [reflexivity | constructor].
  - destruct IH as (xs & Hxs & Hall).
    destruct (lookup_lt_is_Some_2 l (Z.to_nat i)) as [x Hx]; [lia |].
    exists (x :: xs). split.
    + rewrite mapM_Some. constructor.
      * rewrite py_index_in_range by exact Hi. simpl. exact Hx.
      * apply mapM_Some. exact Hxs.
    + constructor; assumption.
Qed.

End BufferProperties.

(** ** Claims about the replay buffer *)

Section BufferClaims.
Import ReplayBuffer.

(** A transition that does not end the episode, and one that does. *)
Definition tr_running : Transition :=
  {| t_state := [0]; t_action := 3; t_reward := -0.1;
     t_next_state := [0]; t_done := false |}.

Definition tr_final : Transition :=
  {| t_state := [0]; t_action := 3; t_reward := 200;
     t_next_state := [0]; t_done := true |}.

(** A buffer of capacity 2 that is full. *)
Definition full_buffer : ReplayBuffer.t :=
  {| capacity := 2; buffer := [tr_running; hindsight tr_running];
     priorities := [1; 1]; beta := 0.4 |}.

(** C3, as stated, fails on a full buffer: pushing a non-terminal transition
    leaves the length at the capacity instead of adding 2, and pushing a
    terminal one leaves it there instead of adding 1. *)
Lemma push_full_no_growth :
  inv full_buffer
  /\ len full_buffer = 2%nat
  /\ len (push full_buffer tr_running) <> (len full_buffer + 2)%nat
  /\ len (push full_buffer tr_final) <> (len full_buffer + 1)%nat.
Proof.
  assert (Hinv : inv full_buffer).
  { split; simpl; [repeat constructor; lra | reflexivity | lia]. }
  split; [exact Hinv |]. split; [reflexivity |].
  rewrite !push_len by (unfold len; simpl; lia). unfold len. simpl. lia.
Qed.

(** C3 (amended): a push makes the length [min capacity (len + k)] with
    [k = 2] for a non-terminal transition and [k = 1] for a terminal one.
    The buffer then holds the old entries followed by the pushed ones, less
    the [len + k - capacity] oldest of them, which are evicted: so while
    [len + k <= capacity] the length grows by exactly [k] and nothing is
    evicted, and at capacity the oldest entries go.  The entries added are
    the transition and, for a non-terminal one, its hindsight copy, which
    differs only in [reward = 1.0] and [done = True]. *)
Theorem push_growth b tr :
  (len b <= capacity b)%nat ->
  let k := if t_done tr then 1%nat else 2%nat in
  let news := if t_done tr then [tr] else [tr; hindsight tr] in
  len (push b tr) = Nat.min (capacity b) (len b + k)
  /\ buffer (push b tr) = drop (len b + k - capacity b) (buffer b ++ news)
  /\ ((len b + k <= capacity b)%nat ->
      len (push b tr) = (len b + k)%nat
      /\ buffer (push b tr) = buffer b ++ news)
  /\ t_state (hindsight tr) = t_state tr
  /\ t_action (hindsight tr) = t_action tr
  /\ t_next_state (hindsight tr) = t_next_state tr
  /\ t_reward (hindsight tr) = 1
  /\ t_done (hindsight tr) = true.
Proof.
  intros Hcap k news.
  assert (Hevict : buffer (push b tr)
                   = drop (len b + k - capacity b) (buffer b ++ news)).
  { unfold push, len in *. subst k news.
    destruct (t_done tr); simpl negb; cbv iota; simpl buffer.
    - rewrite deque_append_keep_last by exact Hcap.
      unfold keep_last. rewrite length_app. reflexivity.
    - rewrite deque_append_twice by exact Hcap.
      unfold keep_last. rewrite length_app. reflexivity. }
  split; [apply push_len; exact Hcap |].
  split; [exact Hevict |].
  split; [| repeat split].
  intros Hroom. split; [rewrite push_len by exact Hcap; fold k; lia |].
  rewrite Hevict.
  replace (len b + k - capacity b)%nat with 0%nat by lia. reflexivity.
Qed.

Lemma push_growth_witness :
  (len (push (init 100) tr_running) = 2%nat
   /\ buffer (push (init 100) tr_running) = [tr_running; hindsight tr_running])
  /\ len (push full_buffer tr_final) = 2%nat
  /\ buffer (push full_buffer tr_final) = [hindsight tr_running; tr_final]
  /\ buffer (push full_buffer tr_running) = [tr_running; hindsight tr_running].
Proof.
  assert (H0 : (len (init 100) <= capacity (init 100))%nat)
    by (unfold len; simpl; lia).
  assert (H1 : (len full_buffer <= capacity full_buffer)%nat)
    by (unfold len; simpl; lia).
  destruct (push_growth (init 100) tr_running H0) as (_ & _ & Hroom & _).
  destruct (push_growth full_buffer tr_final H1) as (Hlen & Hfinal & _).
  destruct (push_growth full_buffer tr_running H1) as (_ & Hrunning & _).
  split; [apply Hroom; unfold len; simpl; lia |].
  split; [exact Hlen |]. split; [exact Hfinal | exact Hrunning].
Defined.

(** C7: the invariant (every priority positive, both deques of one length,
    at most [capacity] entries) holds for a new buffer and survives [push],
    [sample] and [update_priorities]; a push evicts the same positions of
    both deques, so entry and priority stay paired. *)
Theorem buffer_invariant b :
  inv b ->
  (forall tr,
     inv (push b tr)
     /\ zip (buffer (push b tr)) (priorities (push b tr))
        = fold_left (deque_append (capacity b))
            (map (fun e => (e, max_priority b))
                 (if t_done tr then [tr] else [tr; hindsight tr]))
            (zip (buffer b) (priorities b)))
  /\ (forall indices, inv (state_of (sample b indices)))
  /\ (forall indices td_errors,
        inv (state_of (update_priorities b indices td_errors))).
Proof.
  intros Hb. split; [| split].
  - intros tr. split; [apply push_inv; exact Hb |].
    pose proof (inv_len b Hb) as Hlen. unfold push.
    destruct (t_done tr); simpl negb; cbv iota.
    + rewrite append_paired by exact Hlen. reflexivity.
    + rewrite append_paired.
      * rewrite append_paired by exact Hlen. reflexivity.
      * apply inv_len, append_inv; [exact Hb | apply max_priority_pos; exact Hb].
  - intros indices. apply sample_inv. exact Hb.
  - intros indices td_errors. apply update_priorities_loop_inv. exact Hb.
Qed.

Lemma buffer_invariant_witness :
  inv (push (init 100) tr_running)
  /\ inv (state_of (sample (init 100) [0%Z]))
  /\ inv (state_of (update_priorities (init 100) [0%Z] [1])).
Proof.
  destruct (buffer_invariant (init 100) (init_inv 100)) as (Hp & Hs & Hu).
  split; [apply (Hp tr_running) |]. split; [apply Hs | apply Hu].
Defined.

(** C6: [sample] first moves [beta] to [min 1.0 (beta + beta_increment)];
    for a non-empty batch of valid indices it returns, for the [i]-th drawn
    index, the weight [(len * probs[index]) ** (-beta)] divided by the
    largest such value in the batch, so every weight is at most 1 and the
    largest weight is 1. *)
Theorem sample_weights b indices :
  inv b ->
  indices <> [] ->
  Forall (fun i => (0 <= i < Z.of_nat (len b))%Z) indices ->
  let beta' := Rmin 1 (beta b + beta_increment) in
  exists b' batch ps w ws,
    sample b indices = Returned b' (batch, indices, w :: ws)
    /\ beta b' = beta'
    /\ beta' <= 1
    /\ Forall2 (fun i p => probs b !! Z.to_nat i = Some p) indices ps
    /\ (let raw := map (fun p => Rpower (INR (len b) * p) (- beta')) ps in
        exists r rs, raw = r :: rs
          /\ w :: ws = map (fun x => x / max_of r rs) raw)
    /\ Forall (fun x => x <= 1) (w :: ws)
    /\ max_of w ws = 1.
Proof.
  intros Hb Hne Hidx beta'.
  pose proof (inv_len b Hb) as Hlen.
  destruct (gather_is_Some (buffer b) indices Hidx) as (samples & Hs & _).
  assert (Hidx' : Forall (fun i => (0 <= i < Z.of_nat (length (probs b)))%Z) indices).
  { unfold probs. rewrite !length_map, Hlen. exact Hidx. }
  destruct (gather_is_Some (probs b) indices Hidx') as (ps & Hps & Hall).
  assert (Hps_ne : ps <> []).
  { intros ->. apply Forall2_nil_inv_r in Hall. contradiction. }
  destruct ps as [| p ps]; [contradiction |].
  set (b' := {| capacity := capacity b; buffer := buffer b;
                priorities := priorities b; beta := beta' |}).
  set (r := Rpower (INR (len b) * p) (- beta')).
  set (rs := map (fun p => Rpower (INR (len b) * p) (- beta')) ps).
  assert (Hr : 0 < r) by (unfold r, Rpower; apply exp_pos).
  destruct (normalize_spec r rs Hr) as (Hn & Hm & Hle & Hmax).
  exists b', (batch_of samples), (p :: ps), (r / max_of r rs),
         (map (fun x => x / max_of r rs) rs).
  split; [| split; [reflexivity | split; [apply Rmin_l | split; [exact Hall |]]]].
  - unfold sample. fold beta'. fold b'.
    assert (Hl : (len b' =? 0)%nat = false).
    { apply Nat.eqb_neq. unfold len. simpl. intros H0.
      destruct indices as [| i indices]; [contradiction |].
      inversion Hidx; subst. unfold len in *. lia. }
    rewrite Hl.
    change (buffer b') with (buffer b). rewrite Hs.
    change (probs b') with (probs b). rewrite Hps.
    change (len b') with (len b). change (beta b') with beta'.
    change (raw_weights (len b) beta' (p :: ps)) with (r :: rs).
    rewrite Hn. reflexivity.
  - split; [exists r, rs; split; reflexivity |].
    split; [exact Hle | exact Hmax].
Qed.

Lemma sample_weights_witness :
  exists b' batch (ps : list R) w ws,
    sample (push (init 100) tr_running) [0%Z; 1%Z]
      = Returned b' (batch, [0%Z; 1%Z], w :: ws)
    /\ beta b' = Rmin 1 (0.4 + beta_increment)
    /\ Forall (fun x => x <= 1) (w :: ws)
    /\ max_of w ws = 1
    /\ length ps = 2%nat.
Proof.
  assert (Hinv : inv (push (init 100) tr_running))
    by (apply push_inv, init_inv).
  assert (Hne : [0%Z; 1%Z] <> []) by discriminate.
  assert (Hidx : Forall (fun i => (0 <= i < Z.of_nat (len (push (init 100) tr_running)))%Z)
                        [0%Z; 1%Z]).
  { repeat constructor; unfold len; simpl; lia. }
  destruct (sample_weights (push (init 100) tr_running) [0%Z; 1%Z] Hinv Hne Hidx)
    as (b' & batch & ps & w & ws & Hs & Hb & _ & Hall & _ & Hle & Hmax).
  exists b', batch, ps, w, ws.
  repeat split; try assumption.
  symmetry. exact (Forall2_length _ _ _ Hall).
Defined.

End BufferClaims.

(** * Properties of the navigation world *)

Section Geometry.

Lemma sum_sq_nonneg a b : 0 <= a ^ 2 + b ^ 2.
Proof. nra. Qed.

Lemma distance_lt_iff p q r :
  0 <= r ->
  distance p q < r <-> (fst p - fst q) ^ 2 + (snd p - snd q) ^ 2 < r ^ 2.
Proof.
  intros Hr. unfold distance.
  set (x := (fst p - fst q) ^ 2 + (snd p - snd q) ^ 2).
  assert (Hx : 0 <= x) by apply sum_sq_nonneg.
  pose proof (sqrt_pos x) as Hs. pose proof (sqrt_sqrt x Hx) as Hss.
  split; intros H.
  - nra.
  - destruct (Rlt_dec (sqrt x) r) as [Hlt | Hge]; [exact Hlt | nra].
Qed.

Lemma distance_far_x p q r : r <= fst q - fst p -> r <= distance p q.
Proof.
  intros H. destruct (Rle_dec r 0) as [H0 | H0].
  - unfold distance. pose proof (sqrt_pos ((fst p - fst q) ^ 2 + (snd p - snd q) ^ 2)). lra.
  - destruct (Rlt_dec (distance p q) r) as [Hlt | Hge]; [| lra].
    apply distance_lt_iff in Hlt; [| lra].
    assert (H1 : r * r <= (fst q - fst p) * (fst q - fst p))
      by (apply Rmult_le_compat; lra).
    pose proof (pow2_ge_0 (snd p - snd q)). nra.
Qed.

Lemma clamp_id lo hi x : lo <= x <= hi -> clamp lo hi x = x.
Proof.
  intros [H1 H2]. unfold clamp. rewrite Rmin_right by exact H2.
  apply Rmax_right. exact H1.
Qed.

Lemma clamp_low lo hi x : x <= lo -> lo <= hi -> clamp lo hi x = lo.
Proof.
  intros H1 H2. unfold clamp. rewrite Rmin_right by lra.
  apply Rmax_left. exact H1.
Qed.

Lemma clamp_bounds lo hi x : lo <= hi -> lo <= clamp lo hi x <= hi.
Proof.
  intros H. unfold clamp. split.
  - apply Rmax_l.
  - apply Rmax_lub; [exact H | apply Rmin_l].
Qed.

(** Left of the origin the bearing points left. *)
Lemma cos_atan2_neg y x : x < 0 -> cos (atan2 y x) < 0.
Proof.
  intros Hx. unfold atan2.
  rewrite (Rltb_false 0 x) by lra. rewrite (Rltb_true x 0) by exact Hx.
  pose proof (atan_bound (y / x)) as [Hlo Hhi].
  assert (Hc : 0 < cos (atan (y / x))) by (apply cos_gt_0; lra).
  destruct (Rltb y 0).
  - rewrite cos_minus, cos_PI, sin_PI. lra.
  - rewrite cos_plus, cos_PI, sin_PI. lra.
Qed.

Lemma atan2_east x : 0 < x -> atan2 0 x = 0.
Proof.
  intros Hx. unfold atan2. rewrite (Rltb_true 0 x) by exact Hx.
  unfold Rdiv. rewrite Rmult_0_l. apply atan_0.
Qed.

Lemma cos_quarter_turn : cos (1 / 4 * 2 * PI) = 0.
Proof. replace (1 / 4 * 2 * PI) with (PI / 2) by field. apply cos_PI2. Qed.

Lemma sin_quarter_turn : sin (1 / 4 * 2 * PI) = 1.
Proof. replace (1 / 4 * 2 * PI) with (PI / 2) by field. apply sin_PI2. Qed.

Lemma cos_no_turn : cos (0 * 2 * PI) = 1.
Proof. replace (0 * 2 * PI) with 0 by ring. apply cos_0. Qed.

Lemma sin_no_turn : sin (0 * 2 * PI) = 0.
Proof. replace (0 * 2 * PI) with 0 by ring. apply sin_0. Qed.

End Geometry.

Section EnvProperties.
Import NavigationEnv.

Lemma overlaps_false p o :
  (agent_radius + radius o) ^ 2
    <= (fst p - fst (pos o)) ^ 2 + (snd p - snd (pos o)) ^ 2 ->
  0 <= radius o ->
  overlaps p o = false.
Proof.
  intros H Hr. unfold overlaps. apply Rltb_false.
  destruct (Rlt_dec (distance p (pos o)) (agent_radius + radius o)) as [Hlt | Hge]; [| lra].
  apply distance_lt_iff in Hlt; [lra | unfold agent_radius; lra].
Qed.

Lemma overlaps_true p o :
  (fst p - fst (pos o)) ^ 2 + (snd p - snd (pos o)) ^ 2
    < (agent_radius + radius o) ^ 2 ->
  0 <= radius o ->
  overlaps p o = true.
Proof.
  intros H Hr. unfold overlaps. apply Rltb_true.
  apply distance_lt_iff; [unfold agent_radius; lra | exact H].
Qed.

Lemma overlaps_far_east p o :
  agent_radius + radius o <= fst (pos o) - fst p -> overlaps p o = false.
Proof.
  intros H. unfold overlaps. apply Rltb_false. apply distance_far_x. exact H.
Qed.

Lemma target_miss st o :
  (target_radius + radius o) ^ 2
    <= (fst (current st) - fst (pos o)) ^ 2 + (snd (current st) - snd (pos o)) ^ 2 ->
  0 <= radius o ->
  target_bounce st o = st.
Proof.
  intros H Hr. unfold target_bounce, target_overlaps.
  rewrite Rltb_false; [reflexivity |].
  destruct (Rlt_dec (distance (current st) (pos o)) (target_radius + radius o)) as [Hlt | Hge]; [| lra].
  apply distance_lt_iff in Hlt; [lra | unfold target_radius; lra].
Qed.

(** An obstacle that stays clear of the walls keeps its heading. *)
Lemma move_obstacle_free o x y :
  x = fst (pos o) + cos (angle o) * ob_speed o ->
  y = snd (pos o) + sin (angle o) * ob_speed o ->
  radius o <= x <= width - radius o ->
  radius o <= y <= height - radius o ->
  move_obstacle o
  = {| pos := (x, y); radius := radius o; angle := angle o; ob_speed := ob_speed o |}.
Proof.
  intros Hx Hy [Hx1 Hx2] [Hy1 Hy2]. unfold move_obstacle.
  rewrite <- Hx, <- Hy.
  rewrite (Rltb_false x (radius o)), (Rltb_false (width - radius o) x) by lra.
  rewrite (Rltb_false y (radius o)), (Rltb_false (height - radius o) y) by lra.
  simpl. rewrite !clamp_id by lra. reflexivity.
Qed.

(** The agent's position and the obstacles evolve on their own: neither
    reads the target. *)
Definition track_step (c : Pos * list Obstacle) (action : Z) : Pos * list Obstacle :=
  let '(p, obs) := c in
  let obs' := map move_obstacle obs in
  let moved := moved_agent p action in
  (fst (resolve p moved 0 0 obs'), obs').

Lemma resolve_pos old moved d1 d2 d3 d4 obs :
  fst (resolve old moved d1 d2 obs) = fst (resolve old moved d3 d4 obs).
Proof. unfold resolve. destruct (_check_collision moved obs); reflexivity. Qed.

Lemma step_track s action :
  (agent_pos (fst (step s action)), obstacles (fst (step s action)))
  = track_step (agent_pos s, obstacles s) action.
Proof.
  unfold step, track_step. simpl.
  match goal with
  | |- context [resolve ?o ?m ?d1 ?d2 ?obs] =>
      rewrite (surjective_pairing (resolve o m d1 d2 obs));
      rewrite (resolve_pos o m d1 d2 0 0 obs)
  end.
  reflexivity.
Qed.

Lemma run_track actions :
  forall s,
    (agent_pos (run s actions), obstacles (run s actions))
    = fold_left track_step actions (agent_pos s, obstacles s).
Proof.
  induction actions as [| a actions IH]; intros s; [reflexivity |].
  unfold run in *. simpl. rewrite IH, step_track. reflexivity.
Qed.

Lemma track_step_free p obs action :
  _check_collision (moved_agent p action) (map move_obstacle obs) = None ->
  track_step (p, obs) action = (moved_agent p action, map move_obstacle obs).
Proof. intros H. unfold track_step, resolve. rewrite H. reflexivity. Qed.

End EnvProperties.

(** ** Claims about the agent's move, the reward and [reset] *)

Section EnvClaims.
Import NavigationEnv.

Lemma sqrt_lt_iff x r : 0 <= x -> 0 <= r -> (sqrt x < r <-> x < r ^ 2).
Proof.
  intros Hx Hr. pose proof (sqrt_pos x) as Hs. pose proof (sqrt_sqrt x Hx) as Hss.
  split; intros H.
  - nra.
  - destruct (Rlt_dec (sqrt x) r) as [Hlt | Hge]; [exact Hlt | nra].
Qed.

Lemma sqrt_gt_iff x r : 0 <= x -> 0 <= r -> (r < sqrt x <-> r ^ 2 < x).
Proof.
  intros Hx Hr. pose proof (sqrt_pos x) as Hs. pose proof (sqrt_sqrt x Hx) as Hss.
  split; intros H.
  - nra.
  - destruct (Rlt_dec r (sqrt x)) as [Hlt | Hge]; [exact Hlt | nra].
Qed.

Ltac eval_displacement :=
  unfold displacement, member, speed; simpl existsb; cbv iota;
  repeat match goal with
         | |- context [Reqb ?a ?b] =>
             first [rewrite (Reqb_true a b) by lra | rewrite (Reqb_false a b) by lra]
         end;
  simpl negb; simpl andb; cbv iota.

Lemma displacement_up : displacement 0 = (0, 0 - 4).
Proof. eval_displacement. reflexivity. Qed.
Lemma displacement_right : displacement 1 = (0 + 4, 0).
Proof. eval_displacement. reflexivity. Qed.
Lemma displacement_down : displacement 2 = (0, 0 + 4).
Proof. eval_displacement. reflexivity. Qed.
Lemma displacement_left : displacement 3 = (0 - 4, 0).
Proof. eval_displacement. reflexivity. Qed.
Lemma displacement_up_left : displacement 4 = ((0 - 4) * 0.707, (0 - 4) * 0.707).
Proof. eval_displacement. reflexivity. Qed.
Lemma displacement_up_right : displacement 5 = ((0 + 4) * 0.707, (0 - 4) * 0.707).
Proof. eval_displacement. reflexivity. Qed.
Lemma displacement_down_left : displacement 6 = ((0 - 4) * 0.707, (0 + 4) * 0.707).
Proof. eval_displacement. reflexivity. Qed.
Lemma displacement_down_right : displacement 7 = ((0 + 4) * 0.707, (0 + 4) * 0.707).
Proof. eval_displacement. reflexivity. Qed.

(** The length of the displacement of an action. *)
Definition stride (action : Z) : R :=
  sqrt (fst (displacement action) ^ 2 + snd (displacement action) ^ 2).

Lemma member_cases a l : member a l = true -> In a l.
Proof.
  unfold member. intros H. apply existsb_exists in H as (x & Hin & Hx).
  apply Z.eqb_eq in Hx. subst. exact Hin.
Qed.

(** C8, as stated, fails: the factor is the literal [0.707], which is not
    [1/sqrt 2], and a diagonal step is not as long as a cardinal one. *)
Lemma diagonal_stride_not_speed :
  stride 5 <> stride 1
  /\ stride 5 <> speed
  /\ fst (displacement 5) <> speed * (1 / sqrt 2).
Proof.
  assert (H5 : stride 5 < 4).
  { unfold stride. rewrite displacement_up_right. simpl fst. simpl snd.
    apply sqrt_lt_iff; [apply sum_sq_nonneg | lra | lra]. }
  assert (H1 : stride 1 = 4).
  { unfold stride. rewrite displacement_right. simpl fst. simpl snd.
    replace ((0 + 4) ^ 2 + 0 ^ 2) with (4 ^ 2) by ring.
    apply sqrt_pow2. lra. }
  split; [lra |]. split; [unfold speed; lra |].
  rewrite displacement_up_right. simpl fst. unfold speed. intros H.
  assert (H2 : 0 <= 2) by lra.
  pose proof (sqrt_sqrt 2 H2) as Hss.
  pose proof (sqrt_lt_R0 2 ltac:(lra)) as Hs.
  assert (H3 : (0 + 4) * 0.707 * sqrt 2 = 4).
  { rewrite H. field. lra. }
  nra.
Qed.

(** C8 (amended): a diagonal action scales each component of the
    displacement by the constant 0.707, so each component has size
    [0.707 * speed] and the diagonal step is [0.707 * sqrt 2 * speed] long:
    shorter than the cardinal step, which is exactly [speed], by less than
    one thousandth. *)
Theorem diagonal_stride action :
  (member action [4; 5; 6; 7]%Z = true ->
     Rabs (fst (displacement action)) = 0.707 * speed
     /\ Rabs (snd (displacement action)) = 0.707 * speed
     /\ stride action = 0.707 * sqrt 2 * speed
     /\ speed - 0.001 < stride action < speed)
  /\ (member action [0; 1; 2; 3]%Z = true -> stride action = speed).
Proof.
  assert (Habs : forall x, Rabs ((0 - 4) * x) = Rabs ((0 + 4) * x)).
  { intros x. replace ((0 - 4) * x) with (- ((0 + 4) * x)) by ring. apply Rabs_Ropp. }
  assert (Hdiag : forall a b,
            Rabs a = 0.707 * 4 -> Rabs b = 0.707 * 4 ->
            sqrt (a ^ 2 + b ^ 2) = 0.707 * sqrt 2 * 4
            /\ 4 - 0.001 < sqrt (a ^ 2 + b ^ 2) < 4).
  { intros a b Ha Hb.
    assert (Ha2 : a ^ 2 = (0.707 * 4) ^ 2) by (rewrite <- Ha, pow2_abs; reflexivity).
    assert (Hb2 : b ^ 2 = (0.707 * 4) ^ 2) by (rewrite <- Hb, pow2_abs; reflexivity).
    rewrite Ha2, Hb2. split.
    - replace ((0.707 * 4) ^ 2 + (0.707 * 4) ^ 2) with (2 * (0.707 * 4) ^ 2) by ring.
      rewrite sqrt_mult by nra. rewrite sqrt_pow2 by lra. ring.
    - split.
      + apply sqrt_gt_iff; [nra | lra | lra].
      + apply sqrt_lt_iff; [nra | lra | lra]. }
  assert (Hpos : Rabs ((0 + 4) * 0.707) = 0.707 * 4) by (rewrite Rabs_right; lra).
  split; intros H; apply member_cases in H; simpl in H; unfold stride, speed.
  - destruct H as [<- | [<- | [<- | [<- | []]]]].
    + rewrite displacement_up_left. simpl fst. simpl snd.
      rewrite !Habs, Hpos. repeat split; try reflexivity; apply Hdiag; rewrite ?Habs; exact Hpos.
    + rewrite displacement_up_right. simpl fst. simpl snd.
      rewrite !Habs, Hpos. repeat split; try reflexivity; apply Hdiag; rewrite ?Habs; exact Hpos.
    + rewrite displacement_down_left. simpl fst. simpl snd.
      rewrite !Habs, Hpos. repeat split; try reflexivity; apply Hdiag; rewrite ?Habs; exact Hpos.
    + rewrite displacement_down_right. simpl fst. simpl snd.
      rewrite Hpos. repeat split; try reflexivity; apply Hdiag; rewrite ?Habs; exact Hpos.
  - destruct H as [<- | [<- | [<- | [<- | []]]]].
    + rewrite displacement_up. simpl fst. simpl snd.
      replace (0 ^ 2 + (0 - 4) ^ 2) with (4 ^ 2) by ring. apply sqrt_pow2. lra.
    + rewrite displacement_right. simpl fst. simpl snd.
      replace ((0 + 4) ^ 2 + 0 ^ 2) with (4 ^ 2) by ring. apply sqrt_pow2. lra.
    + rewrite displacement_down. simpl fst. simpl snd.
      replace (0 ^ 2 + (0 + 4) ^ 2) with (4 ^ 2) by ring. apply sqrt_pow2. lra.
    + rewrite displacement_left. simpl fst. simpl snd.
      replace ((0 - 4) ^ 2 + 0 ^ 2) with (4 ^ 2) by ring. apply sqrt_pow2. lra.
Qed.

Lemma diagonal_stride_witness :
  (Rabs (fst (displacement 5)) = 0.707 * speed
   /\ Rabs (snd (displacement 5)) = 0.707 * speed
   /\ stride 5 = 0.707 * sqrt 2 * speed
   /\ speed - 0.001 < stride 5 < speed)
  /\ stride 1 = speed.
Proof.
  split.
  - apply (proj1 (diagonal_stride 5)). reflexivity.
  - apply (proj2 (diagonal_stride 1)). reflexivity.
Defined.

End EnvClaims.

Section RewardClaims.
Import NavigationEnv.

Ltac eval_Rltb :=
  repeat match goal with
         | |- context [Rltb ?a ?b] =>
             first [ rewrite (Rltb_true a b) by (world_consts; simpl; lra)
                   | rewrite (Rltb_false a b) by (world_consts; simpl; lra) ]
         end.

(** The agent next to the target, with an obstacle in reach of both the
    agent's move and its bounce. *)
Definition near_target : NavigationEnv.t :=
  {| agent_pos := (100, 100);
     target_pos := (100, 126);
     target_angle := 0;
     obstacles :=
       [ mkObstacle (60, 70) 50 0 1.5;
         mkObstacle (700, 300) 40 0 1.2;
         mkObstacle (500, 600) 45 0 1.8;
         mkObstacle (200, 200) 35 0 1.3 ] |}.

Lemma near_target_tick :
  target_pos (world_tick near_target) = (102, 126)
  /\ agent_pos (world_tick near_target) = (100, 100)
  /\ exists rest,
       obstacles (world_tick near_target) = mkObstacle (61.5, 70) 50 0 1.5 :: rest.
Proof.
  split; [| split; [reflexivity |]].
  - unfold world_tick. cbn [target_pos obstacles near_target].
    assert (Hm : target_move near_target
                 = mkTargetLoop (102, 126) (100, 126) false 0).
    { unfold target_move. cbn [target_pos target_angle near_target fst snd].
      rewrite cos_0, sin_0. eval_Rltb. cbn [orb]. cbv iota.
      f_equal. unfold target_speed. f_equal; lra. }
    rewrite Hm. unfold target_loop. cbn [fold_left].
    repeat match goal with
           | |- context [target_bounce (mkTargetLoop ?l ?sv ?r ?h) ?o] =>
               rewrite (target_miss (mkTargetLoop l sv r h) o)
                 by (cbn; world_consts; lra)
           end.
    cbn [current rebound live fst snd].
    rewrite !clamp_id by (world_consts; lra). reflexivity.
  - eexists. unfold world_tick. cbn [obstacles near_target map].
    f_equal.
    rewrite (move_obstacle_free _ 61.5 70); [reflexivity | | | |];
      cbn [pos angle ob_speed radius fst snd]; rewrite ?cos_0, ?sin_0;
      world_consts; lra.
Qed.

(** C5: when the agent, after its move, is closer to the target than the
    sum of the two radii, [step] returns [done = True] and reward 200,
    whatever the bounce penalty or shaped reward of that step was. *)
Theorem step_reaches_target s action :
  let w := world_tick s in
  distance (moved_agent (agent_pos w) action) (target_pos w)
    < agent_radius + target_radius ->
  snd (snd (step s action)) = true
  /\ snd (fst (snd (step s action))) = 200.
Proof.
  intros w H. unfold step. fold w.
  destruct (resolve (agent_pos w) (moved_agent (agent_pos w) action)
              (distance (moved_agent (agent_pos w) action) (target_pos w))
              (distance (agent_pos w) (target_pos w)) (obstacles w)) as [p reward].
  rewrite (Rltb_true _ _ H). simpl. split; reflexivity.
Qed.

Lemma step_reaches_target_witness :
  _check_collision (moved_agent (100, 100) 2) (obstacles (world_tick near_target))
    <> None
  /\ snd (snd (step near_target 2)) = true
  /\ snd (fst (snd (step near_target 2))) = 200.
Proof.
  destruct near_target_tick as (Ht & Ha & rest & Ho).
  assert (Hmoved : moved_agent (100, 100) 2 = (100, 104)).
  { unfold moved_agent. rewrite displacement_down. cbn [fst snd].
    rewrite !clamp_id by (world_consts; lra). f_equal; lra. }
  split.
  - rewrite Ho, Hmoved. unfold _check_collision. cbn [find].
    rewrite overlaps_true; [discriminate | | ]; cbn; world_consts; lra.
  - apply (step_reaches_target near_target 2).
    rewrite Ht, Ha, Hmoved.
    apply distance_lt_iff; cbn; world_consts; lra.
Defined.

End RewardClaims.

Section ResetClaims.
Import NavigationEnv.

Lemma place_agent_blocked obs draws :
  forall fuel i,
    (forall j, (i <= j < i + fuel)%nat ->
               _check_collision (pos_of (draws j)) obs <> None) ->
    place_agent fuel obs draws i = None.
Proof.
  induction fuel as [| fuel IH]; intros i H; [reflexivity |].
  simpl. destruct (_check_collision (pos_of (draws i)) obs) eqn:E.
  - apply IH. intros j Hj. apply H. lia.
  - exfalso. apply (H i); [lia | exact E].
Qed.

Lemma place_agent_free obs draws :
  forall (k fuel i : nat),
    (forall j, (i <= j < i + k)%nat ->
               _check_collision (pos_of (draws j)) obs <> None) ->
    _check_collision (pos_of (draws (i + k)%nat)) obs = None ->
    (k < fuel)%nat ->
    place_agent fuel obs draws i = Some (pos_of (draws (i + k)%nat)).
Proof.
  induction k as [| k IH]; intros fuel i Hbefore Hfree Hfuel;
    destruct fuel as [| fuel]; try lia; simpl.
  - rewrite Nat.add_0_r in Hfree. rewrite Hfree, Nat.add_0_r. reflexivity.
  - destruct (_check_collision (pos_of (draws i)) obs) eqn:E.
    + replace (i + S k)%nat with (S i + k)%nat in * by lia.
      apply IH; [| exact Hfree | lia].
      intros j Hj. apply Hbefore. lia.
    + exfalso. apply (Hbefore i); [lia | exact E].
Qed.

(** The obstacles as [__init__] leaves them. *)
Definition fresh : NavigationEnv.t := init 0 (0, 0, 0, 0).

(** A generator that keeps proposing the centre of the first obstacle. *)
Definition stuck : Draws :=
  {| agent_draws := fun _ => (300, 400)%Z;
     target_draw := (600, 400)%Z;
     target_u := 0;
     obstacle_draws := fun _ => ((300, 400)%Z, 0) |}.

Lemma stuck_valid : valid_draws stuck.
Proof.
  split; simpl; unfold in_spawn_range; simpl; intros; repeat split; try lia; lra.
Qed.

Lemma stuck_collides j :
  _check_collision (pos_of (agent_draws stuck j)) (obstacles fresh) <> None.
Proof.
  unfold _check_collision. cbn [agent_draws stuck obstacles fresh init find pos_of fst snd].
  rewrite overlaps_true; [discriminate | |]; cbn; world_consts; lra.
Qed.

(** C4, as stated, fails: the placement loop of [reset] has no cap and no
    error exit; on draws that keep landing inside an obstacle no number of
    turns makes it return. *)
Lemma reset_never_returns :
  valid_draws stuck
  /\ ~ (exists fuel, reset fuel fresh stuck <> None).
Proof.
  split; [exact stuck_valid |]. intros [fuel H]. apply H.
  unfold reset. rewrite place_agent_blocked; [reflexivity |].
  intros j _. apply stuck_collides.
Qed.

(** C4 (amended): the placement loop of [reset] is unbounded rejection
    sampling.  It returns at the first drawn position that overlaps no
    obstacle, after exactly that many turns, and [reset] then returns with
    the agent there; while every draw so far overlaps an obstacle it keeps
    looping, with no retry cap and no error. *)
Theorem reset_placement s d :
  (forall k,
     (forall j, (j < k)%nat ->
        _check_collision (pos_of (agent_draws d j)) (obstacles s) <> None) ->
     (forall fuel, (fuel <= k)%nat -> reset fuel s d = None)
     /\ (_check_collision (pos_of (agent_draws d k)) (obstacles s) = None ->
         forall fuel, (k < fuel)%nat ->
           exists s', reset fuel s d = Some (s', _get_state s')
                      /\ agent_pos s' = pos_of (agent_draws d k)))
  /\ ((forall j, _check_collision (pos_of (agent_draws d j)) (obstacles s) <> None) ->
      forall fuel, reset fuel s d = None).
Proof.
  split.
  - intros k Hbefore. split.
    + intros fuel Hfuel. unfold reset.
      rewrite place_agent_blocked; [reflexivity |].
      intros j Hj. apply Hbefore. lia.
    + intros Hfree fuel Hfuel. unfold reset.
      rewrite (place_agent_free (obstacles s) (agent_draws d) k fuel 0);
        [| intros j Hj; apply Hbefore; lia | exact Hfree | exact Hfuel].
      eexists. split; reflexivity.
  - intros Hall fuel. unfold reset.
    rewrite place_agent_blocked; [reflexivity |].
    intros j _. apply Hall.
Qed.

(** Draws that land in free space at the first turn. *)
Definition lucky : Draws :=
  {| agent_draws := fun _ => (50, 400)%Z;
     target_draw := (300, 600)%Z;
     target_u := 0;
     obstacle_draws := fun i =>
       match i with
       | 0%nat => ((50, 330)%Z, 1 / 4)
       | 1%nat => ((600, 100)%Z, 0)
       | 2%nat => ((600, 300)%Z, 0)
       | _ => ((600, 500)%Z, 0)
       end |}.

Lemma lucky_valid : valid_draws lucky.
Proof.
  split; simpl; unfold in_spawn_range; simpl; intros; repeat split; try lia; try lra.
  all: destruct i as [| [| [| i]]]; simpl; try lia; lra.
Qed.

Lemma lucky_free :
  _check_collision (pos_of (agent_draws lucky 0)) (obstacles fresh) = None.
Proof.
  unfold _check_collision. cbn [agent_draws lucky obstacles fresh init find pos_of fst snd].
  rewrite !overlaps_false; [reflexivity | ..]; cbn; world_consts; lra.
Qed.

Lemma reset_placement_witness :
  (exists s', reset 1 fresh lucky = Some (s', _get_state s')
              /\ agent_pos s' = (50, 400))
  /\ reset 5 fresh stuck = None.
Proof.
  destruct (reset_placement fresh lucky) as (H1 & _).
  destruct (reset_placement fresh stuck) as (_ & H2).
  split.
  - destruct (H1 0%nat) as (_ & H); [intros j Hj; lia |].
    apply (H lucky_free 1%nat). lia.
  - apply H2. exact stuck_collides.
Defined.

End ResetClaims.

Section TargetClaims.
Import NavigationEnv.

(** The bounce angle computed at lines 239-241. *)
Definition bearing (p : Pos) (o : Obstacle) : R :=
  atan2 (snd p - snd (pos o)) (fst p - fst (pos o)).

(** One move step from [p] along angle [a]. *)
Definition advance (p : Pos) (a : R) : Pos :=
  (fst p + cos a * target_speed, snd p + sin a * target_speed).

Lemma target_bounce_hit st o :
  target_overlaps (current st) o = true ->
  target_bounce st o
  = {| live := live st; saved := advance (saved st) (bearing (current st) o);
       rebound := true; heading := bearing (current st) o |}.
Proof. intros H. unfold target_bounce. rewrite H. reflexivity. Qed.

Lemma target_bounce_miss st o :
  target_overlaps (current st) o = false -> target_bounce st o = st.
Proof. intros H. unfold target_bounce. rewrite H. reflexivity. Qed.

Lemma target_loop_miss st obs :
  Forall (fun o => target_overlaps (current st) o = false) obs ->
  target_loop st obs = st.
Proof.
  unfold target_loop. induction 1 as [| o obs Ho _ IH]; simpl; [reflexivity |].
  rewrite target_bounce_miss by exact Ho. exact IH.
Qed.

Lemma target_loop_app st l1 l2 :
  target_loop st (l1 ++ l2) = target_loop (target_loop st l1) l2.
Proof. unfold target_loop. apply fold_left_app. Qed.

Lemma advance_moves p a : advance p a <> p.
Proof.
  unfold advance, target_speed. intros H.
  destruct p as [x y]. simpl in H. injection H as Hx Hy.
  pose proof (sin2_cos2 a) as Hsc. unfold Rsqr in Hsc.
  assert (cos a = 0) by lra. assert (sin a = 0) by lra. nra.
Qed.

(** C10: when the moved target overlaps an obstacle and, after that bounce,
    overlaps a later obstacle of the same tick, the saved pre-move position
    is by then the object the live position denotes; the second revert
    therefore leaves the target where the first bounce put it and the second
    move starts there, not at the position the target had before it moved. *)
Theorem second_bounce_starts_at_first s pre o1 mid o2 :
  let st0 := target_move s in
  Forall (fun o => target_overlaps (current st0) o = false) pre ->
  target_overlaps (current st0) o1 = true ->
  let st1 := target_bounce st0 o1 in
  Forall (fun o => target_overlaps (current st1) o = false) mid ->
  target_overlaps (current st1) o2 = true ->
  let st2 := target_loop st0 (pre ++ o1 :: mid ++ [o2]) in
  saved st0 = target_pos s
  /\ current st1 = advance (target_pos s) (bearing (current st0) o1)
  /\ saved st1 = current st1
  /\ current st2 = advance (current st1) (bearing (current st1) o2)
  /\ current st2 <> advance (target_pos s) (bearing (current st1) o2).
Proof.
  intros st0 Hpre H1 st1 Hmid H2 st2.
  assert (Hst1 : st1 = {| live := live st0;
                          saved := advance (target_pos s) (bearing (current st0) o1);
                          rebound := true; heading := bearing (current st0) o1 |}).
  { unfold st1. rewrite target_bounce_hit by exact H1. reflexivity. }
  assert (Hcur1 : current st1 = advance (target_pos s) (bearing (current st0) o1)).
  { rewrite Hst1. reflexivity. }
  assert (Hsaved1 : saved st1 = current st1).
  { rewrite Hst1. reflexivity. }
  assert (Hst2 : st2 = target_bounce st1 o2).
  { unfold st2. rewrite target_loop_app, (target_loop_miss st0 pre Hpre).
    change (o1 :: mid ++ [o2]) with ([o1] ++ mid ++ [o2]).
    rewrite !target_loop_app. change (target_loop st0 [o1]) with st1.
    rewrite (target_loop_miss st1 mid Hmid). reflexivity. }
  assert (Hcur2 : current st2 = advance (current st1) (bearing (current st1) o2)).
  { rewrite Hst2, target_bounce_hit by exact H2. unfold current at 1. simpl.
    rewrite Hsaved1. reflexivity. }
  repeat split; try assumption; try reflexivity.
  rewrite Hcur2, Hcur1. intros Heq.
  apply (advance_moves (target_pos s) (bearing (current st0) o1)).
  unfold advance in *. simpl in *. injection Heq as Hx Hy.
  apply injective_projections; simpl; lra.
Qed.

(** A target squeezed between two obstacles. *)
Definition squeezed : NavigationEnv.t :=
  {| agent_pos := (100, 100);
     target_pos := (500, 300);
     target_angle := 0;
     obstacles :=
       [ mkObstacle (480, 300) 50 0 1.5;
         mkObstacle (490, 300) 40 0 1.2;
         mkObstacle (500, 600) 45 0 1.8;
         mkObstacle (200, 200) 35 0 1.3 ] |}.

Lemma atan2_level y x : y = 0 -> 0 < x -> atan2 y x = 0.
Proof. intros -> Hx. apply atan2_east. exact Hx. Qed.

Lemma second_bounce_witness :
  current (target_loop (target_move squeezed)
             [mkObstacle (480, 300) 50 0 1.5; mkObstacle (490, 300) 40 0 1.2])
    = (502 + 2, 300)
  /\ advance (target_pos squeezed) 0 = (502, 300).
Proof.
  set (o1 := mkObstacle (480, 300) 50 0 1.5).
  set (o2 := mkObstacle (490, 300) 40 0 1.2).
  assert (Hcur0 : current (target_move squeezed) = (502, 300)).
  { unfold target_move, current.
    cbn [target_pos target_angle squeezed fst snd rebound live].
    rewrite cos_0, sin_0. unfold target_speed. f_equal; lra. }
  assert (H1 : target_overlaps (current (target_move squeezed)) o1 = true).
  { rewrite Hcur0. unfold target_overlaps. apply Rltb_true.
    apply distance_lt_iff; cbn; world_consts; lra. }
  assert (Hb1 : bearing (current (target_move squeezed)) o1 = 0).
  { rewrite Hcur0. unfold bearing. cbn [fst snd pos o1].
    apply atan2_level; lra. }
  assert (Hadv : advance (target_pos squeezed) 0 = (502, 300)).
  { unfold advance. cbn [target_pos squeezed fst snd].
    rewrite cos_0, sin_0. unfold target_speed. f_equal; lra. }
  assert (Hcur1 : current (target_bounce (target_move squeezed) o1) = (502, 300)).
  { rewrite target_bounce_hit by exact H1. rewrite Hb1.
    unfold current. cbn [rebound saved]. exact Hadv. }
  assert (H2 : target_overlaps (current (target_bounce (target_move squeezed) o1)) o2 = true).
  { rewrite Hcur1. unfold target_overlaps. apply Rltb_true.
    apply distance_lt_iff; cbn; world_consts; lra. }
  assert (Hb2 : bearing (current (target_bounce (target_move squeezed) o1)) o2 = 0).
  { rewrite Hcur1. unfold bearing. cbn [fst snd pos o2].
    apply atan2_level; lra. }
  destruct (second_bounce_starts_at_first squeezed [] o1 [] o2
              (List.Forall_nil _) H1 (List.Forall_nil _) H2) as (_ & _ & _ & H & _).
  split; [| exact Hadv].
  cbn [app] in H. rewrite H, Hb2, Hcur1.
  unfold advance. cbn [fst snd]. rewrite cos_0, sin_0.
  unfold target_speed. f_equal; lra.
Defined.

End TargetClaims.

Section BoundsClaims.
Import NavigationEnv.

(** The move itself keeps the agent in the world: the clamp stops it at a
    wall without reflecting it. *)
Lemma moved_agent_in_bounds p action : in_bounds (moved_agent p action).
Proof.
  unfold moved_agent, in_bounds. destruct (displacement action) as [dx dy].
  simpl. split; apply clamp_bounds; world_consts; lra.
Qed.

(** The obstacles [n] ticks after the reset drawn by [lucky]: the first one
    drifts down the left wall, the others drift east, far away. *)
Definition obs_at (n : nat) : list Obstacle :=
  [ mkObstacle (50, 330 + 1.5 * INR n) 50 (1 / 4 * 2 * PI) 1.5;
    mkObstacle (600 + 1.2 * INR n, 100) 40 (0 * 2 * PI) 1.2;
    mkObstacle (600 + 1.8 * INR n, 300) 45 (0 * 2 * PI) 1.8;
    mkObstacle (600 + 1.3 * INR n, 500) 35 (0 * 2 * PI) 1.3 ].

Lemma INR_range n m : (n <= m)%nat -> 0 <= INR n <= INR m.
Proof. intros H. split; [apply pos_INR | apply le_INR; exact H]. Qed.

Lemma obs_step n : (n <= 20)%nat -> map move_obstacle (obs_at n) = obs_at (S n).
Proof.
  intros Hn. apply INR_range in Hn as [H0 H20].
  replace (INR 20) with 20 in H20 by (rewrite INR_IZR_INZ; reflexivity).
  unfold obs_at. cbn [map]. rewrite S_INR.
  rewrite (move_obstacle_free _ 50 (330 + 1.5 * (INR n + 1)));
    [| cbn [pos angle ob_speed radius fst snd];
       rewrite ?cos_quarter_turn, ?sin_quarter_turn; world_consts; lra ..].
  rewrite (move_obstacle_free _ (600 + 1.2 * (INR n + 1)) 100);
    [| cbn [pos angle ob_speed radius fst snd];
       rewrite ?cos_no_turn, ?sin_no_turn; world_consts; lra ..].
  rewrite (move_obstacle_free _ (600 + 1.8 * (INR n + 1)) 300);
    [| cbn [pos angle ob_speed radius fst snd];
       rewrite ?cos_no_turn, ?sin_no_turn; world_consts; lra ..].
  rewrite (move_obstacle_free _ (600 + 1.3 * (INR n + 1)) 500);
    [| cbn [pos angle ob_speed radius fst snd];
       rewrite ?cos_no_turn, ?sin_no_turn; world_consts; lra ..].
  reflexivity.
Qed.

(** A step near the left wall that touches no obstacle. *)
Lemma free_step n p action m :
  (n <= 20)%nat ->
  moved_agent p action = m ->
  fst m <= 100 ->
  (agent_radius + 50) ^ 2
    <= (fst m - 50) ^ 2 + (snd m - (330 + 1.5 * INR (S n))) ^ 2 ->
  track_step (p, obs_at n) action = (m, obs_at (S n)).
Proof.
  intros Hn Hm Hx Hfar.
  rewrite track_step_free; rewrite obs_step by exact Hn; rewrite Hm; [reflexivity |].
  apply INR_range in Hn as [H0 H20].
  replace (INR 20) with 20 in H20 by (rewrite INR_IZR_INZ; reflexivity).
  unfold _check_collision, obs_at. cbn [find].
  rewrite overlaps_false;
    [| cbn [pos radius fst snd]; exact Hfar | cbn [radius]; lra].
  rewrite !overlaps_far_east
    by (cbn [pos radius fst snd]; rewrite S_INR; world_consts; lra).
  reflexivity.
Qed.

(** Thirteen steps to the left bring the agent to the wall. *)
Lemma walk_left n :
  (n <= 12)%nat ->
  fold_left track_step (repeat 3%Z n) ((50, 400), obs_at 0)
  = ((50 - 4 * INR n, 400), obs_at n).
Proof.
  induction n as [| n IH]; intros Hn.
  - simpl. f_equal. f_equal. lra.
  - replace (repeat 3%Z (S n)) with (repeat 3%Z n ++ [3%Z])
      by (symmetry; apply (repeat_cons n 3%Z)).
    rewrite fold_left_app, IH by lia. cbn [fold_left].
    assert (Hr : 0 <= INR n <= 11).
    { replace 11 with (INR 11) by (rewrite INR_IZR_INZ; reflexivity).
      apply INR_range. lia. }
    apply free_step; [lia | | cbn [fst]; rewrite S_INR; lra |].
    + unfold moved_agent. rewrite displacement_left. cbn [fst snd].
      rewrite !clamp_id by (world_consts; lra). rewrite S_INR. f_equal; lra.
    + cbn [fst snd]. rewrite S_INR. world_consts.
      pose proof (pow2_ge_0 (INR n + 1 - 5.75)). nra.
Qed.

(** The state [reset] returns on the draws [lucky]. *)
Definition start : NavigationEnv.t :=
  {| agent_pos := (50, 400);
     target_pos := (300, 600);
     target_angle := 0 * 2 * PI;
     obstacles := obs_at 0 |}.

Definition escape_actions : list Z := repeat 3%Z 13 ++ [0; 0; 0]%Z.

Lemma run_agent actions s :
  agent_pos (run s actions)
  = fst (fold_left track_step actions (agent_pos s, obstacles s)).
Proof. rewrite <- run_track. reflexivity. Qed.

Lemma escape_track :
  fst (fst (fold_left track_step escape_actions
              (agent_pos start, obstacles start))) < 0.
Proof.
  unfold start. cbn [agent_pos obstacles]. unfold escape_actions.
  change (repeat 3%Z 13) with (repeat 3%Z 12 ++ [3%Z]).
  rewrite !fold_left_app, walk_left by lia. cbn [fold_left].
  replace (INR 12) with 12 by (rewrite INR_IZR_INZ; reflexivity).
  (* step 13: the clamp stops the agent at the wall *)
  rewrite (free_step 12 _ 3%Z (0, 400)); [| lia | | cbn [fst]; lra |]; cycle 1.
  { unfold moved_agent. rewrite displacement_left. cbn [fst snd].
    rewrite clamp_low by (world_consts; lra).
    rewrite clamp_id by (world_consts; lra). f_equal; lra. }
  { replace (INR 13) with 13 by (rewrite INR_IZR_INZ; reflexivity).
    cbn [fst snd]. world_consts. lra. }
  (* steps 14 and 15: up along the wall *)
  rewrite (free_step 13 _ 0%Z (0, 396)); [| lia | | cbn [fst]; lra |]; cycle 1.
  { unfold moved_agent. rewrite displacement_up. cbn [fst snd].
    rewrite !clamp_id by (world_consts; lra). f_equal; lra. }
  { replace (INR 14) with 14 by (rewrite INR_IZR_INZ; reflexivity).
    cbn [fst snd]. world_consts. lra. }
  rewrite (free_step 14 _ 0%Z (0, 392)); [| lia | | cbn [fst]; lra |]; cycle 1.
  { unfold moved_agent. rewrite displacement_up. cbn [fst snd].
    rewrite !clamp_id by (world_consts; lra). f_equal; lra. }
  { replace (INR 15) with 15 by (rewrite INR_IZR_INZ; reflexivity).
    cbn [fst snd]. world_consts. lra. }
  (* step 16: the first obstacle reaches the agent and pushes it out *)
  unfold track_step. rewrite obs_step by lia.
  assert (Hm : moved_agent (0, 392) 0 = (0, 388)).
  { unfold moved_agent. rewrite displacement_up. cbn [fst snd].
    rewrite !clamp_id by (world_consts; lra). f_equal; lra. }
  rewrite Hm. unfold resolve, _check_collision, obs_at. cbn [find].
  replace (INR 16) with 16 by (rewrite INR_IZR_INZ; reflexivity).
  rewrite overlaps_true by (cbn [pos radius fst snd]; world_consts; lra).
  cbn [fst snd pos].
  assert (Hc : cos (atan2 (388 - (330 + 1.5 * 16)) (0 - 50)) < 0)
    by (apply cos_atan2_neg; lra).
  unfold speed. lra.
Qed.

Lemma reset_lucky : reset 1 fresh lucky = Some (start, _get_state start).
Proof.
  unfold reset. cbn [place_agent]. rewrite lucky_free.
  assert (H : {| agent_pos := pos_of (agent_draws lucky 0);
                 target_pos := pos_of (target_draw lucky);
                 target_angle := target_u lucky * 2 * PI;
                 obstacles := reset_obstacles (obstacles fresh) (obstacle_draws lucky) 0 |}
              = start).
  { unfold start, obs_at.
    cbn [obstacles fresh init reset_obstacles obstacle_draws agent_draws
         target_draw target_u lucky radius ob_speed INR].
    unfold pos_of. cbn [fst snd]. repeat f_equal; lra. }
  rewrite H. reflexivity.
Qed.

(** C2 fails on the code: from the state that [reset] returns on the draws
    [lucky], thirteen steps left and three steps up end with the agent left
    of the world, pushed there by the bounce off the first obstacle, which
    is applied after the clamp and is not clamped itself. *)
Theorem agent_leaves_world :
  valid_draws lucky
  /\ reset 1 fresh lucky = Some (start, _get_state start)
  /\ in_bounds (agent_pos start)
  /\ fst (agent_pos (run start escape_actions)) < 0
  /\ ~ in_bounds (agent_pos (run start escape_actions)).
Proof.
  split; [exact lucky_valid |]. split; [exact reset_lucky |].
  assert (Hneg : fst (agent_pos (run start escape_actions)) < 0).
  { rewrite run_agent. exact escape_track. }
  split; [unfold in_bounds; cbn [agent_pos start fst snd]; world_consts; lra |].
  split; [exact Hneg |].
  unfold in_bounds. lra.
Qed.

End BoundsClaims.

(** * Properties of the dueling head and of the update block *)

Section NetworkClaims.
Import DQNReasoner.

(** A network whose advantage head passes its features through and whose
    value head is constantly zero. *)
Definition probe : DQNReasoner.t :=
  {| trunk := fun x => x;
     value_stream := fun _ => [0];
     advantage_stream := fun h => h;
     next_state_predictor := fun h => h;
     training := true |}.

(** With one sample in the batch (the call that selects an action) the
    advantage minus its mean over dim 1 vanishes: every action gets the
    value. *)
Lemma combine_single_sample v adv :
  combine [[[v]]] [[adv]] = [[map (fun _ => v) adv]].
Proof.
  unfold combine, tensor_add, tensor_sub, mean_dim1_keepdim, broadcast, row_sum.
  cbn [map length fold_left INR].
  destruct adv as [| a [| b adv]].
  - reflexivity.
  - cbn [map]. repeat f_equal. field.
  - cbn [map zip_with]. f_equal. f_equal.
    f_equal; [field |]. f_equal; [field |].
    induction adv as [| c adv IH]; [reflexivity |].
    cbn [map zip_with]. f_equal; [field | exact IH].
Qed.

(** The action values [forward] computes, and the values [V] it adds, on a
    batch of two observations. *)
Definition probe_q : Tensor3 := q_values_of (forward probe [[1; 0]; [0; 0]]).
Definition probe_v : Tensor3 := apply_last (value_stream probe) [[[1; 0]; [0; 0]]].

(** C9 fails on the code: on a batch of two observations the output has
    three dimensions, [1, 2, 2], and the advantage is centred over dim 1,
    the samples of the batch, not over the actions: for the first sample
    the mean over the actions of [Q - V] is 1/4. *)
Theorem forward_centres_over_batch :
  probe_q = [[[1 / 2; 0]; [- (1 / 2); 0]]]
  /\ probe_v = [[[0]; [0]]]
  /\ mean [1 / 2 - 0; 0 - 0] = 1 / 4
  /\ mean [1 / 2 - 0; 0 - 0] <> 0.
Proof.
  assert (Hm : mean [1 / 2 - 0; 0 - 0] = 1 / 4).
  { unfold mean. cbn [fold_right length INR]. field. }
  split; [| split; [reflexivity | split; [exact Hm | rewrite Hm; lra]]].
  transitivity
    [[[0 + (1 - (1 + 0) / (1 + 1)); 0 + (0 - (0 + 0) / (1 + 1))];
      [0 + (0 - (1 + 0) / (1 + 1)); 0 + (0 - (0 + 0) / (1 + 1))]]].
  - reflexivity.
  - repeat f_equal; field.
Qed.

End NetworkClaims.

Section TrainingClaims.
Import Training.

(** C1 fails on the code: the block stops after computing the targets (or,
    the networks being in training mode, at the first [squeeze]); whatever
    it does, the online parameters, the target parameters, the stored
    transitions and the priorities are what they were before.  No
    temporal-difference error is formed, no loss reaches the optimizer and
    [update_priorities] is not called. *)
Theorem update_block_learns_nothing st indices :
  let st' := fst (update_block st indices) in
  dqn st' = dqn st
  /\ target_dqn st' = target_dqn st
  /\ ReplayBuffer.buffer (replay_buffer st') = ReplayBuffer.buffer (replay_buffer st)
  /\ ReplayBuffer.priorities (replay_buffer st')
     = ReplayBuffer.priorities (replay_buffer st).
Proof.
  unfold update_block.
  destruct (batch_size <=? ReplayBuffer.len (replay_buffer st))%nat;
    [| simpl; auto].
  destruct (sample_state (replay_buffer st) indices) as (Hb & Hp & _ & _).
  destruct (ReplayBuffer.sample (replay_buffer st) indices)
    as [b [[batch idx] w] | b]; simpl in Hb, Hp.
  - repeat match goal with
           | |- context [match ?x with DQNReasoner.Pair _ _ => _ | DQNReasoner.Single _ => _ end] =>
               destruct x
           | |- context [match ?x with Some _ => _ | None => _ end] => destruct x
           end; simpl; auto.
  - simpl. auto.
Qed.

(** In training mode, the mode both networks are in, the block raises as
    soon as the buffer is large enough for a batch to be drawn. *)
Lemma update_block_fails st indices b r :
  (batch_size <= ReplayBuffer.len (replay_buffer st))%nat ->
  DQNReasoner.training (dqn st) = true ->
  ReplayBuffer.sample (replay_buffer st) indices = ReplayBuffer.Returned b r ->
  update_block st indices = (with_buffer st b, Failed).
Proof.
  intros Hlen Htrain Hsample. unfold update_block.
  apply Nat.leb_le in Hlen. rewrite Hlen, Hsample.
  destruct r as [[batch idx] w]. unfold DQNReasoner.forward.
  cbn [dqn with_buffer]. rewrite Htrain. reflexivity.
Qed.

End TrainingClaims.

(** * Further properties of the replay buffer *)

Section BufferExtras.
Import ReplayBuffer.

(** X1: a push keeps the newest [capacity] entries, in insertion order, of the
    old entries followed by the pushed ones; the priorities deque keeps the
    same positions. *)
Theorem push_keeps_newest b tr :
  inv b ->
  let news := if t_done tr then [tr] else [tr; hindsight tr] in
  buffer (push b tr) = keep_last (capacity b) (buffer b ++ news)
  /\ priorities (push b tr)
     = keep_last (capacity b)
         (priorities b ++ map (fun _ => max_priority b) news).
Proof.
  intros [Hpos Hlen Hcap]. unfold push.
  destruct (t_done tr); simpl negb; cbv iota; simpl.
  - split; apply deque_append_keep_last; lia.
  - split; apply deque_append_twice; lia.
Qed.

Lemma push_keeps_newest_witness :
  buffer (push full_buffer tr_final) = [hindsight tr_running; tr_final]
  /\ buffer (push full_buffer tr_running) = [tr_running; hindsight tr_running].
Proof.
  assert (Hinv : inv full_buffer).
  { split; simpl; [repeat constructor; lra | reflexivity | lia]. }
  split.
  - rewrite (proj1 (push_keeps_newest full_buffer tr_final Hinv)). reflexivity.
  - rewrite (proj1 (push_keeps_newest full_buffer tr_running Hinv)). reflexivity.
Defined.

Lemma max_of_in x l : In (max_of x l) (x :: l).
Proof.
  unfold max_of. revert x. induction l as [| y l IH]; intros x; simpl.
  - left. reflexivity.
  - destruct (IH (Rmax x y)) as [H | H].
    + rewrite <- H. unfold Rmax. destruct (Rle_dec x y); auto.
    + right. right. exact H.
Qed.

Lemma max_of_eq m x l :
  Forall (fun y => y <= m) (x :: l) -> In m (x :: l) -> max_of x l = m.
Proof.
  intros Hle Hin. apply Rle_antisym.
  - pose proof (max_of_in x l) as H.
    rewrite Forall_forall in Hle. apply Hle. apply list_elem_of_In. exact H.
  - destruct Hin as [-> | Hin]; [apply max_of_ge_init |].
    pose proof (max_of_ge x l) as H. rewrite Forall_forall in H.
    apply H. apply list_elem_of_In. exact Hin.
Qed.

Lemma max_priority_bound b :
  priorities b <> [] -> Forall (fun p => p <= max_priority b) (priorities b).
Proof.
  unfold max_priority. destruct (priorities b) as [| p ps]; [contradiction |].
  intros _. constructor; [apply max_of_ge_init | apply max_of_ge].
Qed.

Lemma deque_append_In {A} maxlen (d : list A) x :
  (0 < maxlen)%nat -> In x (deque_append maxlen d x).
Proof.
  intros H. unfold deque_append.
  destruct (maxlen <? length (d ++ [x]))%nat eqn:E.
  - apply Nat.ltb_lt in E. rewrite length_app in E. simpl in E.
    destruct d as [| a d]; [simpl in E; lia |].
    simpl. apply in_or_app. right. left. reflexivity.
  - apply in_or_app. right. left. reflexivity.
Qed.

Lemma append_max_priority b tr :
  (0 < capacity b)%nat ->
  max_priority (append b tr (max_priority b)) = max_priority b.
Proof.
  intros Hcap. unfold max_priority at 1. simpl priorities.
  pose proof (deque_append_In (capacity b) (priorities b) (max_priority b) Hcap) as Hin.
  assert (Hle : Forall (fun p => p <= max_priority b)
                  (deque_append (capacity b) (priorities b) (max_priority b))).
  { apply deque_append_Forall; [| lra].
    destruct (priorities b) as [| p ps] eqn:E; [constructor |].
    rewrite <- E. apply max_priority_bound. rewrite E. discriminate. }
  destruct (deque_append (capacity b) (priorities b) (max_priority b)) as [| q qs];
    [destruct Hin |].
  apply max_of_eq; assumption.
Qed.

(** X2: a push never changes the largest stored priority: the new entries
    get the largest priority present (1.0 on an empty buffer), whatever is
    evicted. *)
Theorem push_max_priority b tr :
  (0 < capacity b)%nat ->
  max_priority (push b tr) = max_priority b
  /\ (priorities b = [] -> max_priority (push b tr) = 1).
Proof.
  intros Hcap.
  assert (H : max_priority (push b tr) = max_priority b).
  { unfold push. destruct (t_done tr); simpl negb; cbv iota.
    - apply append_max_priority. exact Hcap.
    - pose proof (append_max_priority b tr Hcap) as H1.
      pose proof (append_max_priority (append b tr (max_priority b))
                    (hindsight tr) Hcap) as H2.
      rewrite H1 in H2. exact H2. }
  split; [exact H |].
  intros He. rewrite H. unfold max_priority. rewrite He. reflexivity.
Qed.

Lemma push_max_priority_witness :
  max_priority (push (init 100) tr_running) = 1
  /\ max_priority (push full_buffer tr_final) = max_priority full_buffer.
Proof.
  split.
  - apply (push_max_priority (init 100) tr_running); [simpl; lia | reflexivity].
  - apply (push_max_priority full_buffer tr_final). simpl. lia.
Defined.

End BufferExtras.

Section PriorityExtras.
Import ReplayBuffer.

(** The error of the last pair of [zip(indices, td_errors)] that names
    position [n], if any. *)
Fixpoint last_write (pairs : list (Z * R)) (n : nat) : option R :=
  match pairs with
  | [] => None
  | (i, td) :: rest =>
      match last_write rest n with
      | Some t => Some t
      | None => if (Z.to_nat i =? n)%nat then Some td else None
      end
  end.

Lemma update_priorities_loop_spec pairs :
  forall b,
    Forall (fun p => (0 <= fst p < Z.of_nat (length (priorities b)))%Z) pairs ->
    exists b',
      update_priorities_loop b pairs = Returned b' tt
      /\ buffer b' = buffer b /\ capacity b' = capacity b /\ beta b' = beta b
      /\ length (priorities b') = length (priorities b)
      /\ forall n,
           priorities b' !! n
           = match last_write pairs n with
             | Some td => Some (Rabs td + epsilon)
             | None => priorities b !! n
             end.
Proof.
  induction pairs as [| [i td] rest IH]; intros b Hall.
  - exists b. simpl. repeat split; reflexivity.
  - inversion Hall as [| ? ? Hi Hrest]; subst. simpl in Hi.
    simpl update_priorities_loop. rewrite py_index_in_range by exact Hi.
    set (b1 := {| capacity := capacity b; buffer := buffer b;
                  priorities := <[Z.to_nat i := Rabs td + epsilon]> (priorities b);
                  beta := beta b |}).
    assert (Hlen1 : length (priorities b1) = length (priorities b))
      by (simpl; apply length_insert).
    destruct (IH b1) as (b' & Hrun & Hbuf & Hc & Hbeta & Hlen & Hval).
    { rewrite Hlen1. exact Hrest. }
    exists b'. split; [exact Hrun |].
    split; [rewrite Hbuf; reflexivity |]. split; [rewrite Hc; reflexivity |].
    split; [rewrite Hbeta; reflexivity |]. split; [lia |].
    intros n. rewrite Hval. simpl last_write.
    destruct (last_write rest n); [reflexivity |].
    simpl priorities. destruct (Z.to_nat i =? n)%nat eqn:E.
    + apply Nat.eqb_eq in E. subst n. apply list_lookup_insert_eq. lia.
    + apply Nat.eqb_neq in E. apply list_lookup_insert_ne. exact E.
Qed.

(** X3: with every index in [0, len), [update_priorities] returns normally;
    each position named by some pair ends with [abs(td_error) + epsilon] of
    the last pair naming it, every other priority is unchanged, and the
    transitions, the capacity and beta are untouched. *)
Theorem update_priorities_sets b indices td_errors :
  Forall (fun i => (0 <= i < Z.of_nat (length (priorities b)))%Z) indices ->
  exists b',
    update_priorities b indices td_errors = Returned b' tt
    /\ buffer b' = buffer b /\ capacity b' = capacity b /\ beta b' = beta b
    /\ length (priorities b') = length (priorities b)
    /\ forall n,
         priorities b' !! n
         = match last_write (zip indices td_errors) n with
           | Some td => Some (Rabs td + epsilon)
           | None => priorities b !! n
           end.
Proof.
  intros H. apply update_priorities_loop_spec.
  apply Forall_forall. intros [i td] Hin. simpl.
  rewrite Forall_forall in H. apply H.
  apply list_elem_of_lookup in Hin as [k Hk].
  apply lookup_zip_with_Some in Hk as (x & y & Hxy & Hx & _).
  injection Hxy as -> ->. apply list_elem_of_lookup. exists k. exact Hx.
Qed.

Lemma update_priorities_sets_witness :
  exists b',
    update_priorities full_buffer [1%Z; 1%Z] [3; -2] = Returned b' tt
    /\ priorities b' !! 1%nat = Some (Rabs (-2) + epsilon)
    /\ priorities b' !! 0%nat = Some 1.
Proof.
  destruct (update_priorities_sets full_buffer [1%Z; 1%Z] [3; -2])
    as (b' & Hrun & _ & _ & _ & _ & Hval).
  { repeat constructor; simpl; lia. }
  exists b'. split; [exact Hrun |].
  split; rewrite Hval; reflexivity.
Defined.

Lemma update_priorities_loop_app p1 p2 :
  forall b,
    update_priorities_loop b (p1 ++ p2)
    = match update_priorities_loop b p1 with
      | Returned b1 _ => update_priorities_loop b1 p2
      | Raised b1 => Raised b1
      end.
Proof.
  induction p1 as [| [i td] p1 IH]; intros b; simpl; [reflexivity |].
  destruct (py_index (length (priorities b)) i); [apply IH | reflexivity].
Qed.

Lemma update_priorities_loop_length pairs :
  forall b, length (priorities (state_of (update_priorities_loop b pairs)))
            = length (priorities b).
Proof.
  induction pairs as [| [i td] rest IH]; intros b; simpl; [reflexivity |].
  destruct (py_index (length (priorities b)) i); [| reflexivity].
  rewrite IH. simpl. apply length_insert.
Qed.

(** X4: an index outside [-len, len) raises; the assignments of the pairs
    before it stay in place and the pairs after it are not looked at. *)
Theorem update_priorities_bad_index b i1 td1 i td i2 td2 b1 :
  length i1 = length td1 ->
  update_priorities b i1 td1 = Returned b1 tt ->
  py_index (length (priorities b)) i = None ->
  update_priorities b (i1 ++ i :: i2) (td1 ++ td :: td2) = Raised b1.
Proof.
  intros Hlen Hrun Hbad. unfold update_priorities in *.
  rewrite zip_with_app by exact Hlen. rewrite update_priorities_loop_app, Hrun.
  simpl.
  pose proof (update_priorities_loop_length (zip i1 td1) b) as Hl.
  rewrite Hrun in Hl. simpl in Hl. rewrite Hl, Hbad. reflexivity.
Qed.

Lemma update_priorities_bad_index_witness :
  exists b1,
    update_priorities full_buffer [0%Z; 2%Z; 1%Z] [3; 4; 5] = Raised b1
    /\ priorities b1 !! 0%nat = Some (Rabs 3 + epsilon)
    /\ priorities b1 !! 1%nat = Some 1.
Proof.
  destruct (update_priorities_loop_spec [(0%Z, 3)] full_buffer)
    as (b1 & Hrun & _ & _ & _ & _ & Hval).
  { repeat constructor; simpl; lia. }
  exists b1. split.
  - apply (update_priorities_bad_index full_buffer [0%Z] [3] 2%Z 4 [1%Z] [5] b1);
      [reflexivity | exact Hrun | reflexivity].
  - split; rewrite Hval; reflexivity.
Defined.

End PriorityExtras.

Section SamplingExtras.
Import ReplayBuffer.

Lemma sum_scaled t l :
  fold_right Rplus 0 (map (fun p => p / t) l) = fold_right Rplus 0 l / t.
Proof.
  induction l as [| x l IH]; simpl.
  - unfold Rdiv. ring.
  - rewrite IH. unfold Rdiv. ring.
Qed.

Lemma sum_pos l :
  l <> [] -> Forall (fun x => 0 < x) l -> 0 < fold_right Rplus 0 l.
Proof.
  intros Hne H. destruct l as [| x l]; [contradiction |].
  inversion H as [| ? ? Hx Hl]; subst. simpl.
  assert (0 <= fold_right Rplus 0 l).
  { clear -Hl. induction Hl; simpl; lra. }
  lra.
Qed.

Lemma powers_pos a l : Forall (fun x => 0 < x) (map (fun p => Rpower p a) l).
Proof.
  apply Forall_map, Forall_forall. intros p _. unfold Rpower. apply exp_pos.
Qed.

(** X5: on a non-empty buffer the sampling probabilities are positive, one
    per stored priority, and add up to 1. *)
Theorem probs_distribution b :
  priorities b <> [] ->
  length (probs b) = length (priorities b)
  /\ Forall (fun p => 0 < p) (probs b)
  /\ fold_right Rplus 0 (probs b) = 1.
Proof.
  intros Hne. unfold probs.
  set (raw := map (fun p => Rpower p alpha) (priorities b)).
  assert (Hraw : Forall (fun x => 0 < x) raw) by apply powers_pos.
  assert (Hne' : raw <> []).
  { unfold raw. destruct (priorities b); [contradiction | discriminate]. }
  pose proof (sum_pos raw Hne' Hraw) as Ht.
  split; [unfold raw; rewrite !length_map; reflexivity |]. split.
  - apply Forall_map. eapply Forall_impl; [exact Hraw |].
    intros x Hx. simpl. apply Rdiv_lt_0_compat; assumption.
  - rewrite sum_scaled. field. lra.
Qed.

Lemma probs_distribution_witness :
  fold_right Rplus 0 (probs full_buffer) = 1.
Proof.
  apply (probs_distribution full_buffer). discriminate.
Defined.

(** The form of what [sample] returns once its lookups succeed. *)
Lemma sample_eq b indices samples ps w ws :
  len b <> 0%nat ->
  gather (buffer b) indices = Some samples ->
  gather (probs b) indices = Some ps ->
  raw_weights (len b) (Rmin 1 (beta b + beta_increment)) ps = w :: ws ->
  sample b indices
  = Returned {| capacity := capacity b; buffer := buffer b;
                priorities := priorities b;
                beta := Rmin 1 (beta b + beta_increment) |}
             (batch_of samples, indices,
              map (fun x => x / max_of w ws) (w :: ws)).
Proof.
  intros Hlen Hs Hps Hraw. unfold sample.
  set (b' := {| capacity := capacity b; buffer := buffer b;
                priorities := priorities b;
                beta := Rmin 1 (beta b + beta_increment) |}).
  change (len b') with (len b). apply Nat.eqb_neq in Hlen. rewrite Hlen.
  change (buffer b') with (buffer b). rewrite Hs.
  change (probs b') with (probs b). rewrite Hps.
  change (beta b') with (Rmin 1 (beta b + beta_increment)). rewrite Hraw.
  reflexivity.
Qed.

Lemma gather_nonempty {A} (l : list A) indices xs :
  indices <> [] -> gather l indices = Some xs -> xs <> [].
Proof.
  intros Hne H. unfold gather in H. apply mapM_Some in H.
  destruct H; [contradiction | discriminate].
Qed.

Lemma gather_In {A} (l : list A) indices xs :
  gather l indices = Some xs -> Forall (fun x => In x l) xs.
Proof.
  intros H. unfold gather in H. apply mapM_Some in H.
  induction H as [| i x indices xs Hi _ IH]; constructor; [| exact IH].
  destruct (py_index (length l) i) as [n |]; simpl in Hi; [| discriminate].
  apply list_elem_of_In. apply list_elem_of_lookup. exists n. exact Hi.
Qed.

(** X6: the batch fields are parallel to the drawn indices: the [j]-th
    state, action, reward, next state and flag are those of the transition
    stored at the [j]-th index, and one weight is returned per index. *)
Theorem sample_batch b indices :
  inv b ->
  indices <> [] ->
  Forall (fun i => (0 <= i < Z.of_nat (len b))%Z) indices ->
  exists b' samples weights,
    sample b indices = Returned b' (batch_of samples, indices, weights)
    /\ Forall2 (fun i tr => buffer b !! Z.to_nat i = Some tr) indices samples
    /\ length weights = length indices
    /\ length (states (batch_of samples)) = length indices
    /\ forall j tr, samples !! j = Some tr ->
         states (batch_of samples) !! j = Some (t_state tr)
         /\ actions (batch_of samples) !! j = Some (t_action tr)
         /\ rewards (batch_of samples) !! j = Some (t_reward tr)
         /\ next_states (batch_of samples) !! j = Some (t_next_state tr)
         /\ dones (batch_of samples) !! j = Some (t_done tr).
Proof.
  intros Hb Hne Hidx. pose proof (inv_len b Hb) as Hlen.
  destruct (gather_is_Some (buffer b) indices Hidx) as (samples & Hs & Hall).
  assert (Hidx' : Forall (fun i => (0 <= i < Z.of_nat (length (probs b)))%Z) indices).
  { unfold probs. rewrite !length_map, Hlen. exact Hidx. }
  destruct (gather_is_Some (probs b) indices Hidx') as (ps & Hps & Hall').
  pose proof (gather_nonempty _ _ _ Hne Hps) as Hpsne.
  destruct ps as [| p ps]; [contradiction |].
  assert (Hl : len b <> 0%nat).
  { destruct indices as [| i indices]; [contradiction |].
    inversion Hidx; subst. lia. }
  set (beta' := Rmin 1 (beta b + beta_increment)).
  set (r := Rpower (INR (len b) * p) (- beta')).
  set (rs := map (fun p => Rpower (INR (len b) * p) (- beta')) ps).
  exists {| capacity := capacity b; buffer := buffer b;
            priorities := priorities b; beta := beta' |},
         samples, (map (fun x => x / max_of r rs) (r :: rs)).
  split; [| split; [exact Hall |]].
  - apply (sample_eq b indices samples (p :: ps)); [exact Hl | exact Hs | exact Hps |].
    reflexivity.
  - split; [| split].
    + rewrite length_map. unfold rs. simpl. rewrite length_map.
      symmetry. exact (Forall2_length _ _ _ Hall').
    + simpl. rewrite length_map. symmetry. exact (Forall2_length _ _ _ Hall).
    + intros j tr Hj. simpl. rewrite !list_lookup_fmap, Hj. simpl. auto.
Qed.

Lemma sample_batch_witness :
  exists b' samples weights,
    sample full_buffer [1%Z; 0%Z] = Returned b' (batch_of samples, [1%Z; 0%Z], weights)
    /\ samples = [hindsight tr_running; tr_running]
    /\ length weights = 2%nat.
Proof.
  assert (Hinv : inv full_buffer).
  { split; simpl; [repeat constructor; lra | reflexivity | lia]. }
  destruct (sample_batch full_buffer [1%Z; 0%Z] Hinv) as
    (b' & samples & weights & Hs & Hall & Hw & _).
  { discriminate. }
  { repeat constructor; unfold len; simpl; lia. }
  exists b', samples, weights. split; [exact Hs |]. split; [| exact Hw].
  inversion Hall as [| ? x ? xs H1 Hrest]; subst.
  inversion Hrest as [| ? y ? ys H2 Hrest']; subst.
  inversion Hrest'; subst.
  simpl in H1, H2. injection H1 as <-. injection H2 as <-. reflexivity.
Defined.

(** X7: [sample] raises on an empty buffer and on an empty batch; beta has
    been advanced all the same, and nothing else has changed. *)
Theorem sample_raises b indices :
  len b = 0%nat \/ indices = [] ->
  sample b indices
  = Raised {| capacity := capacity b; buffer := buffer b;
              priorities := priorities b;
              beta := Rmin 1 (beta b + beta_increment) |}.
Proof.
  intros H. unfold sample.
  set (b' := {| capacity := capacity b; buffer := buffer b;
                priorities := priorities b;
                beta := Rmin 1 (beta b + beta_increment) |}).
  change (len b') with (len b).
  destruct (len b =? 0)%nat eqn:E; [reflexivity |].
  apply Nat.eqb_neq in E.
  destruct H as [H | H]; [contradiction |].
  subst indices. reflexivity.
Qed.

Lemma sample_raises_witness :
  sample (init 100) [0%Z]
  = Raised {| capacity := 100; buffer := []; priorities := [];
              beta := Rmin 1 (0.4 + beta_increment) |}.
Proof.
  apply (sample_raises (init 100) [0%Z]). left. reflexivity.
Defined.

End SamplingExtras.

Section UniformExtras.
Import ReplayBuffer.

(** A buffer filled by a sequence of pushes. *)
Definition pushes (b : ReplayBuffer.t) (trs : list Transition) : ReplayBuffer.t :=
  fold_left push trs b.

Lemma push_all_one b tr :
  Forall (fun p => p = 1) (priorities b) ->
  Forall (fun p => p = 1) (priorities (push b tr)).
Proof.
  intros H.
  assert (Hm : max_priority b = 1).
  { unfold max_priority. destruct (priorities b) as [| p ps]; [reflexivity |].
    apply max_of_eq.
    - eapply Forall_impl; [exact H |]. intros x ->. simpl. lra.
    - left. inversion H; subst. reflexivity. }
  unfold push. rewrite Hm.
  destruct (negb (t_done tr)); simpl;
    repeat apply deque_append_Forall; auto.
Qed.

Lemma pushes_keep trs :
  forall b,
    Forall (fun p => p = 1) (priorities b) -> inv b ->
    Forall (fun p => p = 1) (priorities (pushes b trs)) /\ inv (pushes b trs).
Proof.
  unfold pushes.
  induction trs as [| tr trs IH]; intros b H1 H2; simpl; [split; assumption |].
  apply IH; [apply push_all_one; exact H1 | apply push_inv; exact H2].
Qed.

(** X8: as long as a buffer is only pushed to, every stored priority is
    1.0.  (The script never calls [update_priorities].) *)
Theorem pushes_all_one capacity trs :
  Forall (fun p => p = 1) (priorities (pushes (init capacity) trs))
  /\ inv (pushes (init capacity) trs).
Proof. apply pushes_keep; [constructor | apply init_inv]. Qed.

(** X9: when all stored priorities are equal, every importance weight of a
    batch is exactly 1. *)
Theorem equal_priorities_unit_weights b indices p :
  Forall (fun q => q = p) (priorities b) ->
  length (priorities b) = length (buffer b) ->
  indices <> [] ->
  Forall (fun i => (0 <= i < Z.of_nat (len b))%Z) indices ->
  exists b' batch weights,
    sample b indices = Returned b' (batch, indices, weights)
    /\ length weights = length indices
    /\ Forall (fun w => w = 1) weights.
Proof.
  intros Heq Hlen Hne Hidx.
  destruct (gather_is_Some (buffer b) indices Hidx) as (samples & Hs & _).
  assert (Hidx' : Forall (fun i => (0 <= i < Z.of_nat (length (probs b)))%Z) indices).
  { unfold probs. rewrite !length_map, Hlen. exact Hidx. }
  destruct (gather_is_Some (probs b) indices Hidx') as (ps & Hps & Hall).
  pose proof (gather_nonempty _ _ _ Hne Hps) as Hpsne.
  set (total := fold_right Rplus 0 (map (fun p => Rpower p alpha) (priorities b))).
  set (q := Rpower p alpha / total).
  assert (Hq : Forall (fun x => x = q) ps).
  { eapply Forall_impl; [apply (gather_In _ _ _ Hps) |].
    intros x Hx. simpl in Hx. unfold probs in Hx. fold total in Hx.
    apply in_map_iff in Hx as (y & Hyx & Hy). subst x.
    apply in_map_iff in Hy as (z & Hzy & Hz). subst y.
    rewrite Forall_forall in Heq. apply list_elem_of_In in Hz.
    rewrite (Heq z Hz). reflexivity. }
  destruct ps as [| p0 ps]; [contradiction |].
  set (beta' := Rmin 1 (beta b + beta_increment)).
  set (r := Rpower (INR (len b) * q) (- beta')).
  assert (Hr : 0 < r) by (unfold r, Rpower; apply exp_pos).
  assert (Hraw : raw_weights (len b) beta' (p0 :: ps) = r :: map (fun _ => r) ps).
  { unfold raw_weights. inversion Hq as [| ? ? H0 Hrest]; subst p0. simpl. f_equal.
    apply map_ext_in. intros y Hy. rewrite Forall_forall in Hrest.
    rewrite (Hrest y); [reflexivity | apply list_elem_of_In; exact Hy]. }
  assert (Hmax : max_of r (map (fun _ => r) ps) = r).
  { apply max_of_eq; [| left; reflexivity].
    constructor; [lra |]. apply Forall_map, Forall_forall. intros; simpl; lra. }
  assert (Hl : len b <> 0%nat).
  { destruct indices as [| i indices]; [contradiction |].
    inversion Hidx; subst. lia. }
  eexists _, _, _. split; [| split].
  - apply (sample_eq b indices samples (p0 :: ps)); [exact Hl | exact Hs | exact Hps |].
    exact Hraw.
  - rewrite length_map. simpl. rewrite length_map.
    symmetry. exact (Forall2_length _ _ _ Hall).
  - rewrite Hmax. apply Forall_map. constructor.
    + simpl. field. lra.
    + apply Forall_map, Forall_forall. intros; simpl. field. lra.
Qed.

Lemma equal_priorities_unit_weights_witness :
  exists b' batch weights,
    sample (pushes (init 100) [tr_running; tr_final]) [2%Z; 0%Z; 2%Z]
      = Returned b' (batch, [2%Z; 0%Z; 2%Z], weights)
    /\ length weights = length [2%Z; 0%Z; 2%Z]
    /\ Forall (fun w => w = 1) weights.
Proof.
  destruct (pushes_keep [tr_running; tr_final] (init 100)) as (H1 & Hinv);
    [constructor | apply init_inv |].
  apply (equal_priorities_unit_weights _ [2%Z; 0%Z; 2%Z] 1 H1 (inv_len _ Hinv)).
  - discriminate.
  - repeat constructor; unfold len; simpl; lia.
Defined.

Lemma Rmin_cap x d : 0 <= d -> Rmin 1 (Rmin 1 x + d) = Rmin 1 (x + d).
Proof.
  intros Hd. unfold Rmin.
  destruct (Rle_dec 1 x) as [H1 | H1].
  - destruct (Rle_dec 1 (1 + d)); destruct (Rle_dec 1 (x + d)); lra.
  - destruct (Rle_dec 1 (x + d)); lra.
Qed.

(** Successive calls of [sample], one list of drawn indices per call. *)
Definition sample_many (b : ReplayBuffer.t) (draws : list (list Z)) : ReplayBuffer.t :=
  fold_left (fun b indices => state_of (sample b indices)) draws b.

(** X10: [n] calls of [sample], whether they return or raise, leave the
    transitions and the priorities alone and move beta to
    [min(1, beta + n * beta_increment)]: from 0.4 it reaches 1.0 with the
    600th call and stays there. *)
Theorem beta_schedule draws :
  forall b,
    beta b <= 1 ->
    let b' := sample_many b draws in
    beta b' = Rmin 1 (beta b + INR (length draws) * beta_increment)
    /\ buffer b' = buffer b
    /\ priorities b' = priorities b
    /\ capacity b' = capacity b.
Proof.
  unfold sample_many.
  induction draws as [| indices draws IH]; intros b Hb.
  - simpl. rewrite Rmult_0_l, Rplus_0_r, Rmin_right by exact Hb. auto.
  - destruct (sample_state b indices) as (Hbuf & Hp & Hc & Hbeta).
    cbn [fold_left].
    destruct (IH (state_of (sample b indices))) as (H1 & H2 & H3 & H4).
    { rewrite Hbeta. apply Rmin_l. }
    cbv zeta in *. rewrite H1, H2, H3, H4, Hbuf, Hp, Hc, Hbeta.
    repeat split; try reflexivity.
    change (length (indices :: draws)) with (S (length draws)). rewrite S_INR.
    pose proof (pos_INR (length draws)) as Hn.
    rewrite Rmin_cap by (unfold beta_increment; nra).
    f_equal. ring.
Qed.

Lemma beta_schedule_witness :
  beta (sample_many (init 100) [[]; [0%Z]]) = Rmin 1 (0.4 + 2 * beta_increment).
Proof.
  destruct (beta_schedule [[]; [0%Z]] (init 100)) as (H & _).
  { simpl. lra. }
  cbv zeta in H. rewrite H. simpl. f_equal; lra.
Defined.

End UniformExtras.

(** * Further properties of the navigation world *)

Section WorldExtras.
Import NavigationEnv.

Lemma step_state s action :
  target_pos (fst (step s action)) = target_pos (world_tick s)
  /\ target_angle (fst (step s action)) = target_angle (world_tick s)
  /\ obstacles (fst (step s action)) = map move_obstacle (obstacles s)
  /\ agent_pos (fst (step s action))
     = fst (resolve (agent_pos s) (moved_agent (agent_pos s) action) 0 0
              (map move_obstacle (obstacles s))).
Proof.
  unfold step. cbv zeta.
  match goal with
  | |- context [resolve ?o ?m ?d1 ?d2 ?obs] =>
      rewrite (surjective_pairing (resolve o m d1 d2 obs));
      rewrite (resolve_pos o m d1 d2 0 0 obs)
  end.
  simpl. repeat split; reflexivity.
Qed.

(** X11: after every step the target lies in the box its radius leaves
    inside the world, and every obstacle whose diameter fits the world lies
    in its own box, with its radius and speed unchanged: unlike the agent,
    they are clamped after everything that moves them. *)
Theorem step_keeps_world_in_bounds s action :
  Forall (fun o => 0 <= 2 * radius o <= height) (obstacles s) ->
  let s' := fst (step s action) in
  (target_radius <= fst (target_pos s') <= width - target_radius
   /\ target_radius <= snd (target_pos s') <= height - target_radius)
  /\ Forall2 (fun o o' =>
       radius o' = radius o /\ ob_speed o' = ob_speed o
       /\ radius o <= fst (pos o') <= width - radius o
       /\ radius o <= snd (pos o') <= height - radius o)
       (obstacles s) (obstacles s').
Proof.
  intros Hr s'. destruct (step_state s action) as (Ht & _ & Ho & _).
  unfold s'. rewrite Ht, Ho. split.
  - unfold world_tick. simpl.
    split; apply clamp_bounds; world_consts; lra.
  - clear Ht Ho s'.
    induction Hr as [| o obs Ho' _ IH]; simpl; [constructor |].
    constructor; [| exact IH].
    unfold move_obstacle. simpl.
    repeat split; try reflexivity; apply clamp_bounds; world_consts; lra.
Qed.

Lemma step_keeps_world_in_bounds_witness :
  target_radius <= fst (target_pos (fst (step near_target 2))) <= width - target_radius
  /\ length (obstacles (fst (step near_target 2))) = 4%nat.
Proof.
  assert (H : Forall (fun o => 0 <= 2 * radius o <= height) (obstacles near_target)).
  { repeat constructor; simpl; world_consts; lra. }
  destruct (step_keeps_world_in_bounds near_target 2 H) as ((Hx & _) & Hobs).
  split; [exact Hx |].
  rewrite <- (Forall2_length _ _ _ Hobs). reflexivity.
Defined.

Lemma member_false a l : ~ In a l -> member a l = false.
Proof.
  intros H. unfold member. apply not_true_is_false. intros Hm.
  apply H. apply existsb_exists in Hm as (x & Hin & Hx).
  apply Z.eqb_eq in Hx. subst. exact Hin.
Qed.

(** X12: an action code outside 0..7 is accepted and stands for no
    displacement: an agent inside the world stays where it is unless an
    obstacle reaches it. *)
Theorem unknown_action_stays action p :
  (action < 0 \/ 7 < action)%Z ->
  displacement action = (0, 0)
  /\ (in_bounds p -> moved_agent p action = p).
Proof.
  intros Ha.
  assert (Hd : displacement action = (0, 0)).
  { unfold displacement.
    rewrite !member_false by (simpl; lia).
    rewrite (Reqb_true 0 0) by reflexivity. reflexivity. }
  split; [exact Hd |].
  intros [[Hx1 Hx2] [Hy1 Hy2]]. unfold moved_agent. rewrite Hd.
  destruct p as [x y]. simpl in *.
  rewrite !clamp_id by lra. f_equal; lra.
Qed.

Lemma unknown_action_stays_witness :
  displacement 8 = (0, 0) /\ moved_agent (100, 100) (-1) = (100, 100).
Proof.
  split.
  - apply (unknown_action_stays 8 (0, 0)). lia.
  - apply (unknown_action_stays (-1) (100, 100)); [lia |].
    unfold in_bounds. simpl. world_consts. lra.
Defined.

Lemma flat_map_length4 {A} (f : A -> list R) l :
  (forall x, length (f x) = 4%nat) -> length (flat_map f l) = (4 * length l)%nat.
Proof.
  intros H. induction l as [| x l IH]; [reflexivity |].
  simpl flat_map. rewrite length_app, H, IH. simpl. lia.
Qed.

Lemma _get_state_length s :
  length (_get_state s) = (4 + 4 * length (obstacles s))%nat.
Proof.
  unfold _get_state. rewrite length_app, flat_map_length4 by reflexivity.
  reflexivity.
Qed.

Lemma reset_obstacles_length obs draws :
  forall i, length (reset_obstacles obs draws i) = length obs.
Proof.
  induction obs as [| o obs IH]; intros i; simpl; [reflexivity |].
  destruct (draws i) as [dd u]. simpl. rewrite IH. reflexivity.
Qed.

(** X13: the observation [step] returns, and the one [reset] returns when it
    returns, has 4 entries plus 4 per obstacle; the number of obstacles
    never changes, so with the four obstacles of [__init__] it has the 20
    entries [state_size] announces. *)
Theorem observation_length s :
  (forall action,
     length (fst (fst (snd (step s action)))) = (4 + 4 * length (obstacles s))%nat
     /\ length (obstacles (fst (step s action))) = length (obstacles s))
  /\ (forall fuel d s' obs,
        reset fuel s d = Some (s', obs) ->
        length obs = (4 + 4 * length (obstacles s))%nat
        /\ length (obstacles s') = length (obstacles s))
  /\ (forall u us, length (_get_state (init u us)) = 20%nat).
Proof.
  split; [| split].
  - intros action.
    assert (Hl : length (obstacles (fst (step s action))) = length (obstacles s)).
    { destruct (step_state s action) as (_ & _ & Ho & _).
      rewrite Ho. apply length_map. }
    split; [| exact Hl].
    replace (fst (fst (snd (step s action))))
      with (_get_state (fst (step s action))).
    + rewrite _get_state_length, Hl. reflexivity.
    + unfold step. cbv zeta.
      match goal with
      | |- context [resolve ?o ?m ?d1 ?d2 ?obs] => destruct (resolve o m d1 d2 obs)
      end.
      reflexivity.
  - intros fuel d s' obs H. unfold reset in H.
    destruct (place_agent fuel (obstacles s) (agent_draws d) 0); [| discriminate].
    injection H as <- <-.
    rewrite _get_state_length. simpl obstacles.
    rewrite reset_obstacles_length. split; reflexivity.
  - intros u [[[u1 u2] u3] u4]. rewrite _get_state_length. reflexivity.
Qed.

Lemma observation_length_witness :
  length (fst (fst (snd (step fresh 0)))) = 20%nat
  /\ length (_get_state start) = 20%nat.
Proof.
  destruct (observation_length fresh) as (Hstep & Hreset & _).
  split.
  - apply (Hstep 0%Z).
  - apply (Hreset 1%nat lucky start (_get_state start) reset_lucky).
Defined.

Lemma find_first {A} (f : A -> bool) l :
  match find f l with
  | Some x => exists pre post,
      l = pre ++ x :: post /\ f x = true /\ Forall (fun y => f y = false) pre
  | None => Forall (fun y => f y = false) l
  end.
Proof.
  induction l as [| a l IH]; simpl; [constructor |].
  destruct (f a) eqn:E.
  - exists [], l. repeat split; [exact E | constructor].
  - destruct (find f l) as [x |].
    + destruct IH as (pre & post & -> & Hx & Hpre).
      exists (a :: pre), post. repeat split; [exact Hx | constructor; assumption].
    + constructor; assumption.
Qed.

Lemma overlaps_iff p o :
  (overlaps p o = true <-> distance p (pos o) < agent_radius + radius o)
  /\ (overlaps p o = false <-> agent_radius + radius o <= distance p (pos o)).
Proof.
  unfold overlaps, Rltb.
  destruct (Rlt_dec (distance p (pos o)) (agent_radius + radius o));
    split; split; intros; try discriminate; try reflexivity; lra.
Qed.

(** X14: [_check_collision] returns the first obstacle, in list order, whose
    centre is closer to the agent than the sum of the radii, and [None]
    exactly when no obstacle is that close. *)
Theorem check_collision_first p obs :
  match _check_collision p obs with
  | Some o => exists pre post,
      obs = pre ++ o :: post
      /\ distance p (pos o) < agent_radius + radius o
      /\ Forall (fun o' => agent_radius + radius o' <= distance p (pos o')) pre
  | None => Forall (fun o' => agent_radius + radius o' <= distance p (pos o')) obs
  end.
Proof.
  unfold _check_collision. pose proof (find_first (overlaps p) obs) as H.
  destruct (find (overlaps p) obs) as [o |].
  - destruct H as (pre & post & Hobs & Ho & Hpre).
    exists pre, post. split; [exact Hobs |]. split.
    + apply overlaps_iff. exact Ho.
    + eapply Forall_impl; [exact Hpre |]. intros o' Ho'. simpl in Ho'.
      apply overlaps_iff. exact Ho'.
  - eapply Forall_impl; [exact H |]. intros o' Ho'. simpl in Ho'.
    apply overlaps_iff. exact Ho'.
Qed.

End WorldExtras.

Section ResetExtras.
Import NavigationEnv.

(** A position inside the spawn area of [reset]. *)
Definition in_spawn_area (p : Pos) : Prop :=
  50 <= fst p <= width - 50 /\ 50 <= snd p <= height - 50.

Lemma pos_of_spawn d : in_spawn_range d -> in_spawn_area (pos_of d).
Proof.
  intros [[H1 H2] [H3 H4]]. unfold in_spawn_area, pos_of. simpl.
  apply IZR_le in H1, H2, H3, H4. world_consts. lra.
Qed.

Lemma place_agent_Some obs draws :
  forall fuel i p,
    place_agent fuel obs draws i = Some p ->
    exists k, p = pos_of (draws k) /\ _check_collision p obs = None.
Proof.
  induction fuel as [| fuel IH]; intros i p H; [discriminate |].
  simpl in H. destruct (_check_collision (pos_of (draws i)) obs) eqn:E.
  - apply (IH (S i)). exact H.
  - injection H as <-. exists i. split; [reflexivity | exact E].
Qed.

Lemma reset_obstacles_spec obs draws :
  (forall i, in_spawn_range (fst (draws i)) /\ 0 <= snd (draws i) < 1) ->
  forall i,
    Forall2 (fun o o' =>
      radius o' = radius o /\ ob_speed o' = ob_speed o
      /\ in_spawn_area (pos o') /\ 0 <= angle o' < 2 * PI)
      obs (reset_obstacles obs draws i).
Proof.
  intros Hd. induction obs as [| o obs IH]; intros i; simpl; [constructor |].
  specialize (Hd i). destruct (draws i) as [dd u]. simpl in Hd.
  destruct Hd as [Hdd [Hu0 Hu1]].
  constructor; [| apply IH]. simpl.
  repeat split; try (apply pos_of_spawn; exact Hdd).
  - pose proof PI_RGT_0. nra.
  - pose proof PI_RGT_0. nra.
Qed.

(** X15: when [reset] returns on draws inside their ranges, the agent, the
    target and every obstacle lie in the spawn area, 50 away from every
    wall, all headings lie in [0, 2 pi), radii and speeds are unchanged, and
    the agent overlaps none of the obstacles as they were before the
    call. *)
Theorem reset_postcondition fuel s d s' obs :
  valid_draws d ->
  reset fuel s d = Some (s', obs) ->
  obs = _get_state s'
  /\ in_spawn_area (agent_pos s')
  /\ _check_collision (agent_pos s') (obstacles s) = None
  /\ in_spawn_area (target_pos s')
  /\ 0 <= target_angle s' < 2 * PI
  /\ Forall2 (fun o o' =>
       radius o' = radius o /\ ob_speed o' = ob_speed o
       /\ in_spawn_area (pos o') /\ 0 <= angle o' < 2 * PI)
       (obstacles s) (obstacles s').
Proof.
  intros [Ha Ht [Hu0 Hu1] Ho] H. unfold reset in H.
  destruct (place_agent fuel (obstacles s) (agent_draws d) 0) as [p |] eqn:E;
    [| discriminate].
  injection H as <- <-.
  apply place_agent_Some in E as (k & -> & Hfree). simpl.
  split; [reflexivity |].
  split; [apply pos_of_spawn, Ha |]. split; [exact Hfree |].
  split; [apply pos_of_spawn, Ht |].
  split; [pose proof PI_RGT_0; nra |].
  apply reset_obstacles_spec. exact Ho.
Qed.

Lemma reset_postcondition_witness :
  in_spawn_area (agent_pos start)
  /\ _check_collision (agent_pos start) (obstacles fresh) = None.
Proof.
  destruct (reset_postcondition 1 fresh lucky start (_get_state start)
              lucky_valid reset_lucky) as (_ & H1 & H2 & _).
  split; assumption.
Defined.

(** X16: [reset] tests the agent against the obstacles where they were
    before the call and moves them afterwards: when the first obstacle is
    drawn onto the agent's position, the state returned has the agent
    inside that obstacle. *)
Theorem reset_can_overlap fuel s d s' obs o rest :
  obstacles s = o :: rest ->
  0 <= radius o ->
  reset fuel s d = Some (s', obs) ->
  pos_of (fst (obstacle_draws d 0)) = agent_pos s' ->
  exists o', _check_collision (agent_pos s') (obstacles s') = Some o'
             /\ pos o' = agent_pos s' /\ radius o' = radius o.
Proof.
  intros Hobs Hr H Hsame. unfold reset in H.
  destruct (place_agent fuel (obstacles s) (agent_draws d) 0) as [p |];
    [| discriminate].
  injection H as <- _. cbn [agent_pos obstacles] in *. rewrite Hobs.
  cbn [reset_obstacles]. destruct (obstacle_draws d 0) as [dd u].
  cbn [fst] in Hsame. eexists. unfold _check_collision. cbn [find].
  rewrite overlaps_true; [split; [reflexivity | split; [exact Hsame | reflexivity]] | |].
  - cbn [pos radius]. rewrite Hsame. world_consts.
    replace ((fst p - fst p) ^ 2 + (snd p - snd p) ^ 2) with 0 by ring. nra.
  - exact Hr.
Qed.

(** Draws that put the first obstacle where the agent is put. *)
Definition unlucky : Draws :=
  {| agent_draws := fun _ => (50, 400)%Z;
     target_draw := (300, 600)%Z;
     target_u := 0;
     obstacle_draws := fun _ => ((50, 400)%Z, 0) |}.

Lemma reset_can_overlap_witness :
  exists s' obs o',
    reset 1 fresh unlucky = Some (s', obs)
    /\ _check_collision (agent_pos s') (obstacles s') = Some o'.
Proof.
  assert (Hfree : _check_collision (pos_of (agent_draws unlucky 0)) (obstacles fresh) = None)
    by exact lucky_free.
  assert (Hreset : exists s', reset 1 fresh unlucky = Some (s', _get_state s')
                              /\ agent_pos s' = pos_of (50, 400)%Z).
  { unfold reset. cbn [place_agent]. rewrite Hfree. eexists. split; reflexivity. }
  destruct Hreset as (s' & Hreset & Hagent).
  destruct (reset_can_overlap 1 fresh unlucky s' (_get_state s')
              (mkObstacle (300, 400) 50 (0 * 2 * PI) 1.5)
              [ mkObstacle (700, 300) 40 (0 * 2 * PI) 1.2;
                mkObstacle (500, 600) 45 (0 * 2 * PI) 1.8;
                mkObstacle (200, 200) 35 (0 * 2 * PI) 1.3 ])
    as (o' & Ho' & _).
  - reflexivity.
  - simpl. lra.
  - exact Hreset.
  - rewrite Hagent. reflexivity.
  - exists s', (_get_state s'), o'. split; [exact Hreset | exact Ho'].
Defined.

End ResetExtras.

Section MotionExtras.
Import NavigationEnv.

Lemma distance_sym p q : distance p q = distance q p.
Proof. unfold distance. f_equal. ring. Qed.

Lemma distance_triangle p q r : distance p q <= distance p r + distance r q.
Proof.
  assert (H : forall a b, distance a b = dist_euc (fst a) (snd a) (fst b) (snd b)).
  { intros a b. unfold distance, dist_euc, Rsqr. f_equal. ring. }
  rewrite !H. apply triangle.
Qed.

Lemma distance_le p q r :
  0 <= r ->
  (fst p - fst q) ^ 2 + (snd p - snd q) ^ 2 <= r ^ 2 ->
  distance p q <= r.
Proof.
  intros Hr H. unfold distance.
  destruct (Rle_dec (sqrt ((fst p - fst q) ^ 2 + (snd p - snd q) ^ 2)) r) as [Hle | Hgt];
    [exact Hle |].
  exfalso. assert (Hlt : r < sqrt ((fst p - fst q) ^ 2 + (snd p - snd q) ^ 2)) by lra.
  apply sqrt_gt_iff in Hlt; [lra | apply sum_sq_nonneg | exact Hr].
Qed.

Lemma clamp_step lo hi x d :
  lo <= x <= hi -> (x - clamp lo hi (x + d)) ^ 2 <= d ^ 2.
Proof.
  intros [H1 H2]. unfold clamp, Rmax, Rmin.
  destruct (Rle_dec hi (x + d)); destruct (Rle_dec lo _); nra.
Qed.

Lemma displacement_bound action :
  fst (displacement action) ^ 2 + snd (displacement action) ^ 2 <= speed ^ 2.
Proof.
  unfold displacement, speed.
  destruct (member action [0; 4; 5]%Z), (member action [2; 6; 7]%Z),
    (member action [1; 5; 7]%Z), (member action [3; 4; 6]%Z);
    repeat match goal with
           | |- context [Reqb ?a ?b] =>
               first [rewrite (Reqb_true a b) by lra | rewrite (Reqb_false a b) by lra]
           end;
    simpl; lra.
Qed.

Lemma moved_agent_near p action :
  in_bounds p -> distance p (moved_agent p action) <= speed.
Proof.
  intros [Hx Hy]. unfold moved_agent.
  pose proof (displacement_bound action) as Hd.
  destruct (displacement action) as [dx dy]. simpl in Hd.
  apply distance_le; [unfold speed; lra |]. simpl fst. simpl snd.
  pose proof (clamp_step 0 width (fst p) dx Hx).
  pose proof (clamp_step 0 height (snd p) dy Hy). lra.
Qed.

Lemma bounce_distance p a :
  distance p (fst p + cos a * speed, snd p + sin a * speed) = speed.
Proof.
  unfold distance, speed. simpl.
  replace ((fst p - (fst p + cos a * 4)) * ((fst p - (fst p + cos a * 4)) * 1)
           + (snd p - (snd p + sin a * 4)) * ((snd p - (snd p + sin a * 4)) * 1))
    with (4 ^ 2).
  - apply sqrt_pow2. lra.
  - pose proof (sin2_cos2 a) as H. unfold Rsqr in H. nra.
Qed.

(** X17: an agent inside the world is never moved farther than [speed] by
    one step; a bounce moves it exactly [speed] away from where it stood
    before the step. *)
Theorem agent_speed_limit s action :
  in_bounds (agent_pos s) ->
  distance (agent_pos s) (agent_pos (fst (step s action))) <= speed
  /\ (_check_collision (moved_agent (agent_pos s) action)
        (map move_obstacle (obstacles s)) <> None ->
      distance (agent_pos s) (agent_pos (fst (step s action))) = speed).
Proof.
  intros Hin. destruct (step_state s action) as (_ & _ & _ & Ha).
  rewrite Ha. unfold resolve.
  destruct (_check_collision (moved_agent (agent_pos s) action)
              (map move_obstacle (obstacles s))) as [o |]; simpl fst.
  - rewrite bounce_distance. split; [lra | reflexivity].
  - split; [apply moved_agent_near; exact Hin | intros H; contradiction].
Qed.

Lemma agent_speed_limit_witness :
  distance (agent_pos near_target) (agent_pos (fst (step near_target 2))) <= speed.
Proof.
  apply (agent_speed_limit near_target 2).
  unfold in_bounds. simpl. world_consts. lra.
Defined.

Lemma step_outputs s action :
  let w := world_tick s in
  let moved := moved_agent (agent_pos w) action in
  let dist := distance moved (target_pos w) in
  let old_dist := distance (agent_pos w) (target_pos w) in
  snd (snd (step s action)) = Rltb dist (agent_radius + target_radius)
  /\ snd (fst (snd (step s action)))
     = if Rltb dist (agent_radius + target_radius) then 200
       else snd (resolve (agent_pos w) moved dist old_dist (obstacles w)).
Proof.
  cbv zeta. unfold step. cbv zeta.
  match goal with
  | |- context [resolve ?o ?m ?d1 ?d2 ?obs] => destruct (resolve o m d1 d2 obs)
  end.
  split; reflexivity.
Qed.

(** X18: for an agent inside the world the reward of a step is 200 when the
    step is terminal and lies between -2.1 and 1.9 when it is not, so the
    reward is 200 exactly on terminal steps. *)
Theorem step_reward_range s action :
  in_bounds (agent_pos s) ->
  let reward := snd (fst (snd (step s action))) in
  let done := snd (snd (step s action)) in
  (done = true /\ reward = 200)
  \/ (done = false /\ -2.1 <= reward <= 1.9).
Proof.
  intros Hin. cbv zeta.
  destruct (step_outputs s action) as [Hd Hr]. cbv zeta in Hd, Hr.
  rewrite Hd, Hr. clear Hd Hr.
  assert (Hnear : distance (agent_pos (world_tick s))
                    (moved_agent (agent_pos (world_tick s)) action) <= speed)
    by (apply moved_agent_near; exact Hin).
  generalize dependent (obstacles (world_tick s)).
  generalize dependent (target_pos (world_tick s)).
  generalize dependent (agent_pos (world_tick s)).
  intros ap Hnear tp obs.
  set (moved := moved_agent ap action) in *.
  destruct (Rltb (distance moved tp) (agent_radius + target_radius));
    [left; split; reflexivity | right; split; [reflexivity |]].
  unfold resolve.
  destruct (_check_collision moved obs); cbn [snd]; [lra |].
  pose proof (distance_triangle ap tp moved) as H1.
  pose proof (distance_triangle moved tp ap) as H2.
  rewrite (distance_sym moved ap) in H2.
  unfold speed in Hnear. lra.
Qed.

Lemma step_reward_range_witness :
  (snd (snd (step fresh 0)) = true /\ snd (fst (snd (step fresh 0))) = 200)
  \/ (snd (snd (step fresh 0)) = false
      /\ -2.1 <= snd (fst (snd (step fresh 0))) <= 1.9).
Proof.
  apply (step_reward_range fresh 0).
  unfold in_bounds. simpl. world_consts. lra.
Defined.

End MotionExtras.

(** * Further properties of the network and of the loop *)

Section LoopExtras.
Import Training.

Lemma forward_single net x h v :
  DQNReasoner.trunk net [x] = [h] ->
  DQNReasoner.value_stream net h = [v] ->
  DQNReasoner.q_values_of (DQNReasoner.forward net [x])
  = [[map (fun _ => v) (DQNReasoner.advantage_stream net h)]].
Proof.
  intros Ht Hv.
  assert (H : DQNReasoner.q_values_of (DQNReasoner.forward net [x])
              = DQNReasoner.combine [[[v]]] [[DQNReasoner.advantage_stream net h]]).
  { unfold DQNReasoner.forward. rewrite Ht. unfold apply_last. simpl map.
    rewrite Hv. destruct (DQNReasoner.training net); reflexivity. }
  rewrite H. apply combine_single_sample.
Qed.

(** X19: on a single observation, the call that selects an action, the
    advantage is its own mean over dim 1 and cancels: every action gets the
    value [V] as its action value. *)
Theorem forward_single_state net x h v :
  DQNReasoner.trunk net [x] = [h] ->
  DQNReasoner.value_stream net h = [v] ->
  DQNReasoner.q_values_of (DQNReasoner.forward net [x])
  = [[map (fun _ => v) (DQNReasoner.advantage_stream net h)]].
Proof. exact (forward_single net x h v). Qed.

Lemma forward_single_state_witness :
  DQNReasoner.q_values_of (DQNReasoner.forward probe [[3; 1; 2]]) = [[[0; 0; 0]]].
Proof.
  apply (forward_single_state probe [3; 1; 2] [3; 1; 2] 0); reflexivity.
Defined.

Lemma argmax_from_flat v n :
  forall best_i i, argmax_from v best_i i (repeat v n) = best_i.
Proof.
  induction n as [| n IH]; intros best_i i; simpl; [reflexivity |].
  rewrite Rltb_false by lra. apply IH.
Qed.

Lemma map_const_repeat {A B} (v : B) (l : list A) :
  map (fun _ => v) l = repeat v (length l).
Proof. induction l as [| a l IH]; simpl; [reflexivity | rewrite IH; reflexivity]. Qed.

(** X20: epsilon-greedy selection returns the random action when the draw is
    below epsilon.  Otherwise, in training mode (the mode the script leaves
    both networks in) the greedy branch raises; in evaluation mode all
    action values of the single observation are equal, so the greedy action
    is always 0. *)
Theorem select_action_cases epsilon u explore net x h v :
  DQNReasoner.trunk net [x] = [h] ->
  DQNReasoner.value_stream net h = [v] ->
  DQNReasoner.advantage_stream net h <> [] ->
  (u < epsilon -> select_action epsilon u explore net x = Some explore)
  /\ (epsilon <= u -> DQNReasoner.training net = true ->
      select_action epsilon u explore net x = None)
  /\ (epsilon <= u -> DQNReasoner.training net = false ->
      select_action epsilon u explore net x = Some 0%Z).
Proof.
  intros Ht Hv Hadv.
  pose proof (forward_single net x h v Ht Hv) as Hq.
  split; [| split].
  - intros Hu. unfold select_action. rewrite Rltb_true by exact Hu. reflexivity.
  - intros Hu Htr. unfold select_action. rewrite Rltb_false by exact Hu.
    unfold DQNReasoner.forward. rewrite Htr. reflexivity.
  - intros Hu Htr. unfold select_action. rewrite Rltb_false by exact Hu.
    destruct (DQNReasoner.forward net [x]) as [q pr | q] eqn:E.
    + unfold DQNReasoner.forward in E. rewrite Htr in E. discriminate.
    + simpl in Hq. rewrite Hq. simpl concat. rewrite app_nil_r, map_const_repeat.
      destruct (DQNReasoner.advantage_stream net h) as [| a adv]; [contradiction |].
      simpl. rewrite argmax_from_flat. reflexivity.
Qed.

(** The probe network switched to evaluation mode. *)
Definition probe_eval : DQNReasoner.t :=
  {| DQNReasoner.trunk := DQNReasoner.trunk probe;
     DQNReasoner.value_stream := DQNReasoner.value_stream probe;
     DQNReasoner.advantage_stream := DQNReasoner.advantage_stream probe;
     DQNReasoner.next_state_predictor := DQNReasoner.next_state_predictor probe;
     DQNReasoner.training := false |}.

Lemma select_action_cases_witness :
  select_action 0.5 0.2 7 probe [3; 1; 2] = Some 7%Z
  /\ select_action 0.5 0.9 7 probe [3; 1; 2] = None
  /\ select_action 0.5 0.9 7 probe_eval [1; 2; 3] = Some 0%Z.
Proof.
  destruct (select_action_cases 0.5 0.2 7 probe [3; 1; 2] [3; 1; 2] 0)
    as (H1 & _); [reflexivity | reflexivity | discriminate |].
  destruct (select_action_cases 0.5 0.9 7 probe [3; 1; 2] [3; 1; 2] 0)
    as (_ & H2 & _); [reflexivity | reflexivity | discriminate |].
  destruct (select_action_cases 0.5 0.9 7 probe_eval [1; 2; 3] [1; 2; 3] 0)
    as (_ & _ & H3); [reflexivity | reflexivity | discriminate |].
  split; [apply H1; lra |]. split; [apply H2; [lra | reflexivity] |].
  apply H3; [lra | reflexivity].
Defined.

Lemma decay_max x :
  0 <= x -> decay (Rmax epsilon_end x) = Rmax epsilon_end (x * epsilon_decay).
Proof.
  intros Hx. unfold decay. destruct (Rle_dec epsilon_end x) as [H | H].
  - rewrite (Rmax_right epsilon_end x) by exact H. reflexivity.
  - rewrite (Rmax_left epsilon_end x) by lra.
    rewrite !Rmax_left by (unfold epsilon_end, epsilon_decay in *; nra).
    reflexivity.
Qed.

(** X21: after [n] episodes epsilon is [max(0.01, 0.997 ** n)]: it starts at
    1, never rises, and never leaves [0.01, 1]. *)
Theorem epsilon_schedule n :
  epsilon_after n = Rmax epsilon_end (epsilon_decay ^ n)
  /\ epsilon_end <= epsilon_after n <= epsilon_start
  /\ epsilon_after (S n) <= epsilon_after n.
Proof.
  assert (Hpow : forall k, 0 < epsilon_decay ^ k <= 1).
  { intros k. unfold epsilon_decay. split.
    - apply pow_lt. lra.
    - induction k as [| k IH]; simpl; [lra |].
      assert (0 < 0.997 ^ k) by (apply pow_lt; lra). nra. }
  assert (Hform : forall k, epsilon_after k = Rmax epsilon_end (epsilon_decay ^ k)).
  { induction k as [| k IH].
    - unfold epsilon_after, epsilon_start, epsilon_end. simpl.
      rewrite Rmax_right by lra. reflexivity.
    - unfold epsilon_after in *. simpl Nat.iter. rewrite IH.
      rewrite decay_max by (destruct (Hpow k); lra).
      simpl pow. f_equal. ring. }
  split; [apply Hform |].
  rewrite !Hform. destruct (Hpow n) as [H0 H1]. destruct (Hpow (S n)) as [H2 H3].
  simpl pow in *. unfold epsilon_end, epsilon_start, epsilon_decay, Rmax in *.
  repeat match goal with
         | |- context [Rle_dec ?a ?b] => destruct (Rle_dec a b)
         end; repeat split; nra.
Qed.

Lemma pushes_len trs :
  forall b,
    Forall (fun tr => ReplayBuffer.t_done tr = false) trs ->
    (ReplayBuffer.len b + 2 * length trs <= ReplayBuffer.capacity b)%nat ->
    ReplayBuffer.len (pushes b trs) = (ReplayBuffer.len b + 2 * length trs)%nat
    /\ ReplayBuffer.capacity (pushes b trs) = ReplayBuffer.capacity b.
Proof.
  unfold pushes.
  induction trs as [| tr trs IH]; intros b Hall Hroom; simpl.
  - split; [lia | reflexivity].
  - inversion Hall as [| ? ? Htr Hrest]; subst. simpl in Hroom.
    assert (Hc : ReplayBuffer.capacity (ReplayBuffer.push b tr) = ReplayBuffer.capacity b).
    { unfold ReplayBuffer.push. rewrite Htr. reflexivity. }
    assert (Hl : ReplayBuffer.len (ReplayBuffer.push b tr) = (ReplayBuffer.len b + 2)%nat).
    { rewrite push_len by lia. rewrite Htr. lia. }
    destruct (IH (ReplayBuffer.push b tr) Hrest) as [H1 H2]; [rewrite Hc, Hl; lia |].
    rewrite H1, H2, Hl, Hc. split; [lia | reflexivity].
Qed.

(** X22: with the online network in training mode, as the script leaves it,
    the update block raises as soon as the buffer holds [batch_size]
    entries: the sampling has advanced beta, nothing else has changed. *)
Theorem update_block_raises st indices :
  ReplayBuffer.inv (replay_buffer st) ->
  (batch_size <= ReplayBuffer.len (replay_buffer st))%nat ->
  DQNReasoner.training (dqn st) = true ->
  indices <> [] ->
  Forall (fun i => (0 <= i < Z.of_nat (ReplayBuffer.len (replay_buffer st)))%Z) indices ->
  update_block st indices
  = (with_buffer st
       {| ReplayBuffer.capacity := ReplayBuffer.capacity (replay_buffer st);
          ReplayBuffer.buffer := ReplayBuffer.buffer (replay_buffer st);
          ReplayBuffer.priorities := ReplayBuffer.priorities (replay_buffer st);
          ReplayBuffer.beta :=
            Rmin 1 (ReplayBuffer.beta (replay_buffer st) + ReplayBuffer.beta_increment) |},
     Failed).
Proof.
  intros Hinv Hlen Htrain Hne Hidx.
  pose proof (ReplayBuffer.inv_len _ Hinv) as Hl.
  destruct (gather_is_Some (ReplayBuffer.buffer (replay_buffer st)) indices Hidx)
    as (samples & Hs & _).
  assert (Hidx' : Forall (fun i => (0 <= i < Z.of_nat (length (ReplayBuffer.probs (replay_buffer st))))%Z)
                         indices).
  { unfold ReplayBuffer.probs. rewrite !length_map, Hl. exact Hidx. }
  destruct (gather_is_Some (ReplayBuffer.probs (replay_buffer st)) indices Hidx')
    as (ps & Hps & _).
  pose proof (gather_nonempty _ _ _ Hne Hps) as Hpsne.
  destruct ps as [| p ps]; [contradiction |].
  eapply update_block_fails; [exact Hlen | exact Htrain |].
  apply (sample_eq _ indices samples (p :: ps)); [| exact Hs | exact Hps | reflexivity].
  unfold batch_size in Hlen. lia.
Qed.

Lemma update_block_raises_witness :
  snd (update_block
         {| dqn := probe; target_dqn := probe;
            replay_buffer := pushes (ReplayBuffer.init 100) (repeat tr_running 32) |}
         [0%Z; 63%Z])
  = Failed.
Proof.
  destruct (pushes_len (repeat tr_running 32) (ReplayBuffer.init 100)) as [Hlen _].
  { apply Forall_forall. intros tr Hin. apply list_elem_of_In, repeat_spec in Hin.
    subst. reflexivity. }
  { rewrite repeat_length. unfold ReplayBuffer.len. simpl. lia. }
  rewrite repeat_length in Hlen.
  change (ReplayBuffer.len (ReplayBuffer.init 100)) with 0%nat in Hlen.
  rewrite update_block_raises; [reflexivity | | | reflexivity | discriminate |].
  - apply pushes_keep; [constructor | apply init_inv].
  - cbn [replay_buffer]. rewrite Hlen. unfold batch_size. lia.
  - cbn [replay_buffer]. rewrite Hlen. repeat constructor; lia.
Defined.

End LoopExtras.
